(** * sourcer: the memoizing, trampolined parse driver (sourcer/parser.py)

    A shallow embedding of [parse], [parse_prefix] and the [Parser] class:
    generators are resumption trees, the parser object is a record that is
    threaded through the calls, exceptions are a result constructor, and the
    two [while] loops of the driver run on explicit fuel. *)

From Stdlib Require Import List String Ascii Arith Bool Lia.
Import ListNotations.
Set Warnings "-register-all".
Local Open Scope string_scope.
Local Open Scope list_scope.

(** ** Python values *)

(** The values the driver handles: results of parses and elements of a
    token source. *)
Inductive Value : Type :=
| VNone
| VStr (s : string)
| VInt (n : nat)
| VTuple (vs : list Value)
| VInstance (cls : nat) (attrs : list (string * Value))
| VToken (tag : nat) (content : Value)
| VMatch (re : nat) (start stop : nat).

Fixpoint Value_eq_dec (a b : Value) {struct a} : {a = b} + {a <> b}.
Proof.
  decide equality;
    try apply Nat.eq_dec; try apply string_dec.
  - revert vs0. induction vs as [|x xs IH]; intros [|y ys];
      try (right; discriminate); [left; reflexivity|].
    destruct (Value_eq_dec x y) as [->|Hn]; [|right; congruence].
    destruct (IH ys) as [->|Hn]; [left; reflexivity | right; congruence].
  - revert attrs0. induction attrs as [|[n x] xs IH]; intros [|[m y] ys];
      try (right; discriminate); [left; reflexivity|].
    destruct (string_dec n m) as [->|Hn]; [|right; congruence].
    destruct (Value_eq_dec x y) as [->|Hn]; [|right; congruence].
    destruct (IH ys) as [->|Hn]; [left; reflexivity | right; congruence].
Defined.

Definition value_eqb (a b : Value) : bool :=
  if Value_eq_dec a b then true else false.

(** [getattr(obj, 'content')]: tokens carry a content, instances may have
    been given one with [setattr]; every other object has no such
    attribute ([None] here stands for the AttributeError). *)
Fixpoint lookup_attr (name : string) (attrs : list (string * Value))
  : option Value :=
  match attrs with
  | [] => None
  | (n, v) :: rest => if String.eqb n name then Some v else lookup_attr name rest
  end.

Definition getattr_content (obj : Value) : option Value :=
  match obj with
  | VToken _ c => Some c
  | VInstance _ attrs => lookup_attr "content" attrs
  | _ => None
  end.

(** [setattr(obj, name, v)] on an instance: rebinding keeps the slot. *)
Fixpoint set_attr (name : string) (v : Value) (attrs : list (string * Value))
  : list (string * Value) :=
  match attrs with
  | [] => [(name, v)]
  | (n, w) :: rest =>
      if String.eqb n name then (n, v) :: rest
      else (n, w) :: set_attr name v rest
  end.

Definition setattr (obj : Value) (name : string) (v : Value) : Value :=
  match obj with
  | VInstance cls attrs => VInstance cls (set_attr name v attrs)
  | other => other
  end.

(** ** Terms *)

(** The [build] argument of the infix reducers, defunctionalised: the
    default 3-tuple, the closure made by [_assoc_struct_builder], or a
    user function known by number. *)
Inductive Build : Type :=
| BuildTuple
| BuildStruct (cls : nat) (names : list string)
| BuildFun (id : nat).

(** Grammar terms.  The first five are the shapes [Parser._parse] tests for
    itself; [ForwardRef] is unwrapped by [Parser._start]; the rest are
    objects of terms.py whose [parse] method supplies the suspension.
    Struct classes, regex objects, forward references and user terms are
    known by number; what they stand for is in the environment below. *)
Inductive Term : Type :=
| TNone
| TStruct (cls : nat)
| TStr (s : string)
| TRegex (re : nat)
| TTuple (items : list Term)
| ForwardRef (ref : nat)
| Left (a b : Term)
| End
| Backtrack
| Opt (a : Term)
| Return (v : Value)
| Literal (v : Value)
| ReduceLeft (first middle last : Term) (build : Build)
| ReduceRight (first middle last : Term) (build : Build)
| Custom (id : nat).

Definition Build_eq_dec (a b : Build) : {a = b} + {a <> b}.
Proof.
  decide equality; try apply Nat.eq_dec; apply (list_eq_dec string_dec).
Defined.

Fixpoint Term_eq_dec (a b : Term) {struct a} : {a = b} + {a <> b}.
Proof.
  decide equality;
    try apply Nat.eq_dec; try apply string_dec; try apply Value_eq_dec;
    try apply Build_eq_dec.
  revert items0. induction items as [|x xs IH]; intros [|y ys];
    try (right; discriminate); [left; reflexivity|].
  destruct (Term_eq_dec x y) as [->|Hn]; [|right; congruence].
  destruct (IH ys) as [->|Hn]; [left; reflexivity | right; congruence].
Defined.

(** Memo keys are [(term, pos)] pairs. *)
Definition Key : Type := (Term * nat)%type.

Definition Key_eq_dec (a b : Key) : {a = b} + {a <> b}.
Proof. decide equality; [apply Nat.eq_dec | apply Term_eq_dec]. Defined.

Definition key_eqb (a b : Key) : bool :=
  if Key_eq_dec a b then true else false.

(** ** Results, steps and generators *)

(** What a finished evaluation is: [ParseFailure] or [ParseResult]. *)
Inductive Ans : Type :=
| ParseFailure
| ParseResult (value : Value) (pos : nat).

(** What the driver sends into a generator: Python's [None] or an answer. *)
Definition Sent : Type := option Ans.

(** What a generator yields: a sub-request or a final answer. *)
Inductive Out : Type :=
| ParseStep (term : Term) (pos : nat)
| Final (a : Ans).

Inductive Exn : Type :=
| ParseError
| AttributeError
| IndexError
| KeyError
| TypeError
| StopIteration
| UserError (id : nat).

(** A generator body run up to its next [yield]: it yields a value and
    waits for what is sent, or returns (StopIteration), or raises. *)
Inductive Gen : Type :=
| Yield (out : Out) (k : Sent -> Gen)
| Stop
| Raise (e : Exn).

(** A generator object: not yet started, or suspended at a [yield]. *)
Inductive Generator : Type :=
| Fresh (body : Gen)
| Suspended (k : Sent -> Gen).

(** [g.send(x)]: a just-started generator accepts only [None]. *)
Definition send (g : Generator) (x : Sent) : Gen :=
  match g, x with
  | Fresh body, None => body
  | Fresh _, Some _ => Raise TypeError
  | Suspended k, _ => k x
  end.

(** The source: a string, or any other indexable sequence. *)
Inductive Source : Type :=
| SText (s : string)
| STokens (l : list Value).

Definition source_len (src : Source) : nat :=
  match src with
  | SText s => String.length s
  | STokens l => List.length l
  end.

(** [source[pos]] *)
Definition source_index (src : Source) (pos : nat) : option Value :=
  match src with
  | SText s => option_map (fun c => VStr (String c EmptyString)) (String.get pos s)
  | STokens l => nth_error l pos
  end.

Inductive Result (A : Type) : Type :=
| Ok (a : A)
| Exc (e : Exn)
| OutOfFuel.
Arguments Ok {A} a.
Arguments Exc {A} e.
Arguments OutOfFuel {A}.

(** ** The environment of a grammar *)

(** What the numbered objects stand for, and the part of terms.py this
    file takes as given: [preparse] is [ForwardRef.preparse]; [regex_match]
    is [regex.match(source, pos)] giving the match object and [match.end()];
    [is_left_assoc] and [is_right_assoc] are [issubclass(cls, LeftAssoc)] and
    [issubclass(cls, RightAssoc)]; [class_assignments] lists the attribute
    assignments the constructor of a struct class performs, in order;
    [lib_parse] is the [parse] method of the infix reducers and of user
    terms. *)
Record Env : Type := {
  preparse : nat -> Term;
  regex_match : nat -> string -> nat -> option (Value * nat);
  is_left_assoc : nat -> bool;
  is_right_assoc : nat -> bool;
  class_assignments : nat -> list (string * Term);
  lib_parse : Term -> Source -> nat -> Gen
}.

Definition stop : Sent -> Gen := fun _ => Stop.

(** Modelled from the spec: terms.py, which defines [Left.parse], is not
    among the sources.  Section 3 of the spec gives: [Left(a,b)] parses [a]
    then [b] and yields [a]'s value.  These are the two points at which its
    suspension waits: for the answer to [b], and before that for the answer
    to [a]. *)
Definition Left_after_b (va : Value) : Sent -> Gen :=
  fun r2 =>
    match r2 with
    | Some (ParseResult _ pb) => Yield (Final (ParseResult va pb)) stop
    | Some ParseFailure => Yield (Final ParseFailure) stop
    | None => Raise AttributeError
    end.

Definition Left_after_a (b : Term) : Sent -> Gen :=
  fun r1 =>
    match r1 with
    | Some (ParseResult va pa) => Yield (ParseStep b pa) (Left_after_b va)
    | Some ParseFailure => Yield (Final ParseFailure) stop
    | None => Raise AttributeError
    end.

(** Modelled from the spec: terms.py, which defines the [parse] methods of
    [Left], [End], [Backtrack], [Opt], [Return] and [Literal], is not among
    the sources.  Section 3 of the spec gives: [Left(a,b)] parses [a] then
    [b] and yields [a]'s value; [End] succeeds iff [pos == length] and
    consumes nothing; [Backtrack] succeeds with [pos - 1] as the yielded
    position provided [pos > 0]; [Opt(t)] tries [t], yields its value on
    success and [None] without consuming on failure; [Return(v)] succeeds
    without consuming, yielding [v]; [Literal(v)] succeeds iff
    [source[pos] == v], consuming one element.  The reducers and user terms
    are left to the environment. *)
Definition term_parse (E : Env) (t : Term) (src : Source) (pos : nat) : Gen :=
  match t with
  | Left a b => Yield (ParseStep a pos) (Left_after_a b)
  | End =>
      if Nat.eqb pos (source_len src)
      then Yield (Final (ParseResult VNone pos)) stop
      else Yield (Final ParseFailure) stop
  | Backtrack =>
      match pos with
      | 0 => Yield (Final ParseFailure) stop
      | S p => Yield (Final (ParseResult VNone p)) stop
      end
  | Opt a =>
      Yield (ParseStep a pos) (fun r =>
        match r with
        | Some (ParseResult v p) => Yield (Final (ParseResult v p)) stop
        | Some ParseFailure => Yield (Final (ParseResult VNone pos)) stop
        | None => Raise AttributeError
        end)
  | Return v => Yield (Final (ParseResult v pos)) stop
  | Literal v =>
      match source_index src pos with
      | Some x =>
          if value_eqb x v
          then Yield (Final (ParseResult v (pos + 1))) stop
          else Yield (Final ParseFailure) stop
      | None => Yield (Final ParseFailure) stop
      end
  | other => lib_parse E other src pos
  end.

(** ** The Parser object *)

Record Parser : Type := {
  source : Source;
  memo : list (Key * Ans);
  stack : list (Key * Generator);
  fieldmap : list (nat * list (string * Term));
  delegates : list (nat * Term)
}.

(** [Parser.__init__].  The stack is kept with its top at the head. *)
Definition Parser_init (src : Source) : Parser :=
  {| source := src; memo := []; stack := []; fieldmap := []; delegates := [] |}.

(** [self.memo[key]] and [self.memo[key] = ans]: the newest binding of a
    key is the one that is read. *)
Fixpoint memo_get (key : Key) (m : list (Key * Ans)) : option Ans :=
  match m with
  | [] => None
  | (k, a) :: rest => if key_eqb key k then Some a else memo_get key rest
  end.

Definition memo_set (key : Key) (a : Ans) (m : list (Key * Ans))
  : list (Key * Ans) := (key, a) :: m.
Arguments memo_set : simpl never.

Fixpoint cache_get {A : Type} (cls : nat) (m : list (nat * A)) : option A :=
  match m with
  | [] => None
  | (c, x) :: rest => if Nat.eqb cls c then Some x else cache_get cls rest
  end.

Definition with_memo (P : Parser) (m : list (Key * Ans)) : Parser :=
  {| source := source P; memo := m; stack := stack P;
     fieldmap := fieldmap P; delegates := delegates P |}.

Definition with_stack (P : Parser) (s : list (Key * Generator)) : Parser :=
  {| source := source P; memo := memo P; stack := s;
     fieldmap := fieldmap P; delegates := delegates P |}.

Definition with_fieldmap (P : Parser) (f : list (nat * list (string * Term)))
  : Parser :=
  {| source := source P; memo := memo P; stack := stack P;
     fieldmap := f; delegates := delegates P |}.

Definition with_delegates (P : Parser) (d : list (nat * Term)) : Parser :=
  {| source := source P; memo := memo P; stack := stack P;
     fieldmap := fieldmap P; delegates := d |}.

(** ** The generators of parser.py *)

(** [source[lo : hi]] on a string. *)
Definition slice (s : string) (lo hi : nat) : string := substring lo (hi - lo) s.

Definition _parse_nothing (pos : nat) : Gen :=
  Yield (Final (ParseResult VNone pos)) stop.

Definition _parse_text (src : Source) (term : string) (pos : nat) : Gen :=
  let end_ := pos + String.length term in
  match src with
  | SText s =>
      if String.eqb (slice s pos end_) term
      then Yield (Final (ParseResult (VStr term) end_)) stop
      else Yield (Final ParseFailure) stop
  | STokens _ => Yield (Final ParseFailure) stop
  end.

(** The statements of [_parse_token] after its first [if]. *)
Definition _parse_token_rest (src : Source) (term : string) (pos : nat) : Gen :=
  match source_index src pos with
  | None => Raise IndexError
  | Some next =>
      match getattr_content next with
      | None => Raise AttributeError
      | Some c =>
          if value_eqb c (VStr term)
          then Yield (Final (ParseResult (VStr term) (pos + 1))) stop
          else Yield (Final ParseFailure) stop
      end
  end.

Definition _parse_token (src : Source) (term : string) (pos : nat) : Gen :=
  if Nat.leb (source_len src) pos
  then Yield (Final ParseFailure) (fun _ => _parse_token_rest src term pos)
  else _parse_token_rest src term pos.

(** [self._parse_string], bound once in [__init__]. *)
Definition _parse_string (src : Source) (term : string) (pos : nat) : Gen :=
  match src with
  | SText _ => _parse_text src term pos
  | STokens _ => _parse_token src term pos
  end.

Definition _parse_regex_rest (E : Env) (src : Source) (re pos : nat) : Gen :=
  match src with
  | SText s =>
      match regex_match E re s pos with
      | Some (m, e) => Yield (Final (ParseResult m e)) stop
      | None => Yield (Final ParseFailure) stop
      end
  | STokens _ => Raise TypeError
  end.

Definition _parse_regex (E : Env) (src : Source) (re pos : nat) : Gen :=
  match src with
  | SText _ => _parse_regex_rest E src re pos
  | STokens _ =>
      Yield (Final ParseFailure) (fun _ => _parse_regex_rest E src re pos)
  end.

(** The [for] loop of [_parse_tuple] with its accumulator. *)
Fixpoint tuple_loop (items : list Term) (ans : list Value) (pos : nat) : Gen :=
  match items with
  | [] => Yield (Final (ParseResult (VTuple ans) pos)) stop
  | item :: rest =>
      Yield (ParseStep item pos) (fun next =>
        match next with
        | Some (ParseResult v p) => tuple_loop rest (ans ++ [v]) p
        | Some ParseFailure =>
            Yield (Final ParseFailure) (fun _ => Raise AttributeError)
        | None => Raise AttributeError
        end)
  end.

Definition _parse_tuple (items : list Term) (pos : nat) : Gen :=
  tuple_loop items [] pos.

(** The [for] loop of [_parse_simple_struct] over [self.fieldmap[term]]. *)
Fixpoint struct_loop (fields : list (string * Term)) (ans : Value) (pos : nat)
  : Gen :=
  match fields with
  | [] => Yield (Final (ParseResult ans pos)) stop
  | (field, value) :: rest =>
      Yield (ParseStep value pos) (fun next =>
        match next with
        | Some (ParseResult v p) => struct_loop rest (setattr ans field v) p
        | Some ParseFailure =>
            Yield (Final ParseFailure) (fun _ => Raise AttributeError)
        | None => Raise AttributeError
        end)
  end.

Definition _parse_simple_struct (P : Parser) (cls pos : nat) : Gen :=
  match cache_get cls (fieldmap P) with
  | Some fields => struct_loop fields (VInstance cls []) pos
  | None => Raise KeyError
  end.

(** [_struct_fields(cls)]: the assignments recorded while the class is
    instantiated. *)
Definition _struct_fields (E : Env) (cls : nat) : list (string * Term) :=
  class_assignments E cls.

(** [list(op)] *)
Definition list_of (op : Value) : option (list Value) :=
  match op with
  | VTuple l => Some l
  | VStr s => Some (map (fun c => VStr (String c EmptyString)) (list_ascii_of_string s))
  | _ => None
  end.

(** The closure [build] returned by [_assoc_struct_builder]. *)
Definition build (cls : nat) (names : list string) (left op right : Value)
  : Result Value :=
  match list_of op with
  | None => Exc TypeError
  | Some ops =>
      let values := [left] ++ ops ++ [right] in
      Ok (fold_left (fun ans nv => setattr ans (fst nv) (snd nv))
                    (combine names values) (VInstance cls []))
  end.

Definition _assoc_struct_builder (cls : nat) (fields : list (string * Term))
  : Build := BuildStruct cls (map fst fields).

(** [_parse] on a term that is not a class: every branch but the struct
    one.  [_parse_assoc_struct] re-enters [_parse] with its delegate, an
    instance of a reducer, which lands here. *)
Definition _parse_instance (E : Env) (P : Parser) (term : Term) (pos : nat)
  : Gen :=
  match term with
  | TNone => _parse_nothing pos
  | TStr s => _parse_string (source P) s pos
  | TRegex re => _parse_regex E (source P) re pos
  | TTuple items => _parse_tuple items pos
  | other => term_parse E other (source P) pos
  end.

(** The block of [_parse_assoc_struct] that compiles the delegate of a
    struct class from its field list. *)
Definition make_delegate (E : Env) (cls : nat) (fields : list (string * Term))
  : Result Term :=
  match fields with
  | [] => Exc IndexError
  | f0 :: _ =>
      let first := snd f0 in
      let middle := TTuple (map snd (removelast (tl fields))) in
      let last_ := snd (last fields f0) in
      let build := _assoc_struct_builder cls fields in
      let is_left := is_left_assoc E cls in
      Ok (if is_left then ReduceLeft first middle last_ build
          else ReduceRight first middle last_ build)
  end.

Definition _parse_assoc_struct (E : Env) (P : Parser) (cls pos : nat)
  : Result (Gen * Parser) :=
  match cache_get cls (delegates P) with
  | Some d => Ok (_parse_instance E P d pos, P)
  | None =>
      match cache_get cls (fieldmap P) with
      | None => Exc KeyError
      | Some fields =>
          match make_delegate E cls fields with
          | Ok d =>
              let P' := with_delegates P ((cls, d) :: delegates P) in
              Ok (_parse_instance E P' d pos, P')
          | Exc e => Exc e
          | OutOfFuel => OutOfFuel
          end
      end
  end.

Definition _parse_struct (E : Env) (P : Parser) (cls pos : nat)
  : Result (Gen * Parser) :=
  let P1 := match cache_get cls (fieldmap P) with
            | Some _ => P
            | None => with_fieldmap P ((cls, _struct_fields E cls) :: fieldmap P)
            end in
  if is_left_assoc E cls || is_right_assoc E cls
  then _parse_assoc_struct E P1 cls pos
  else Ok (_parse_simple_struct P1 cls pos, P1).

Definition _parse (E : Env) (P : Parser) (term : Term) (pos : nat)
  : Result (Gen * Parser) :=
  match term with
  | TStruct cls => _parse_struct E P cls pos
  | other => Ok (_parse_instance E P other pos, P)
  end.

(** ** The driver *)

(** [while isinstance(term, ForwardRef): term = term.preparse()] *)
Fixpoint unwrap (E : Env) (depth : nat) (term : Term) : option Term :=
  match term with
  | ForwardRef r =>
      match depth with
      | 0 => None
      | S d => unwrap E d (preparse E r)
      end
  | other => Some other
  end.

Definition _start (E : Env) (depth : nat) (P : Parser) (term : Term) (pos : nat)
  : Result (Sent * Parser) :=
  match unwrap E depth term with
  | None => OutOfFuel
  | Some term =>
      let key := (term, pos) in
      match memo_get key (memo P) with
      | Some a => Ok (Some a, P)
      | None =>
          let P1 := with_memo P (memo_set key ParseFailure (memo P)) in
          match _parse E P1 term pos with
          | Ok (generator, P2) =>
              Ok (None, with_stack P2 ((key, Fresh generator) :: stack P2))
          | Exc e => Exc e
          | OutOfFuel => OutOfFuel
          end
      end
  end.

(** One turn of the [while self.stack] loop of [run], on a non-empty
    stack whose top frame is [(key, top)]. *)
Definition loop_body (E : Env) (depth : nat) (P : Parser) (ans : Sent)
  (key : Key) (top : Generator) (rest : list (Key * Generator))
  : Result (Sent * Parser) :=
  match send top ans with
  | Yield (ParseStep t p) k =>
      _start E depth (with_stack P ((key, Suspended k) :: rest)) t p
  | Yield (Final a) k =>
      Ok (Some a, with_memo (with_stack P rest) (memo_set key a (memo P)))
  | Stop => Exc StopIteration
  | Raise e => Exc e
  end.

Fixpoint run_loop (E : Env) (depth fuel : nat) (P : Parser) (ans : Sent)
  : Result (Sent * Parser) :=
  match stack P with
  | [] => Ok (ans, P)
  | (key, top) :: rest =>
      match fuel with
      | 0 => OutOfFuel
      | S fuel' =>
          match loop_body E depth P ans key top rest with
          | Ok (ans', P') => run_loop E depth fuel' P' ans'
          | Exc e => Exc e
          | OutOfFuel => OutOfFuel
          end
      end
  end.

(** [run] up to the end of its loop: the last answer and the parser. *)
Definition drive (E : Env) (depth fuel : nat) (P : Parser) (term : Term)
  : Result (Sent * Parser) :=
  match _start E depth P term 0 with
  | Ok (ans, P1) => run_loop E depth fuel P1 ans
  | Exc e => Exc e
  | OutOfFuel => OutOfFuel
  end.

Definition run (E : Env) (depth fuel : nat) (P : Parser) (term : Term)
  : Result Sent :=
  match drive E depth fuel P term with
  | Ok (Some ParseFailure, _) => Exc ParseError
  | Ok (ans, _) => Ok ans
  | Exc e => Exc e
  | OutOfFuel => OutOfFuel
  end.

Definition parse_prefix (E : Env) (depth fuel : nat) (term : Term)
  (src : Source) : Result Sent :=
  let parser := Parser_init src in
  run E depth fuel parser term.

(** [ans.value] *)
Definition ans_value (ans : Sent) : Result Value :=
  match ans with
  | Some (ParseResult v _) => Ok v
  | _ => Exc AttributeError
  end.

Definition parse (E : Env) (depth fuel : nat) (term : Term) (src : Source)
  : Result Value :=
  let whole := Left term End in
  match parse_prefix E depth fuel whole src with
  | Ok ans => ans_value ans
  | Exc e => Exc e
  | OutOfFuel => OutOfFuel
  end.

(** A grammar with no numbered objects. *)
Definition empty_env : Env :=
  {| preparse := fun _ => TNone;
     regex_match := fun _ _ _ => None;
     is_left_assoc := fun _ => false;
     is_right_assoc := fun _ => false;
     class_assignments := fun _ => [];
     lib_parse := fun _ _ _ => Raise TypeError |}.

(** ** States of a run *)

(** One turn of the loop of [run], as a relation between driver states
    (the parser and the answer about to be sent). *)
Inductive turn (E : Env) (depth : nat)
  : Parser * Sent -> Parser * Sent -> Prop :=
| turn_body P ans key top rest P' ans' :
    stack P = (key, top) :: rest ->
    loop_body E depth P ans key top rest = Ok (ans', P') ->
    turn E depth (P, ans) (P', ans').

Inductive turns (E : Env) (depth : nat)
  : Parser * Sent -> Parser * Sent -> Prop :=
| turns_refl S : turns E depth S S
| turns_step S1 S2 S3 :
    turns E depth S1 S2 -> turn E depth S2 S3 -> turns E depth S1 S3.

(** The states [run(term)] goes through on a new [Parser(src)]. *)
Inductive reachable (E : Env) (depth : nat) (src : Source) (term : Term)
  : Parser -> Sent -> Prop :=
| reach_start P ans :
    _start E depth (Parser_init src) term 0 = Ok (ans, P) ->
    reachable E depth src term P ans
| reach_turn P ans P' ans' :
    reachable E depth src term P ans ->
    turn E depth (P, ans) (P', ans') ->
    reachable E depth src term P' ans'.

Definition keys (s : list (Key * Generator)) : list Key := map fst s.

(** The request the top suspension makes next, when the memo answers it:
    an evaluation of [key] that returns [a] without a new suspension. *)
Definition reads (E : Env) (depth : nat) (P : Parser) (ans : Sent)
  (key : Key) (a : Ans) : Prop :=
  exists k0 top rest t k,
    stack P = (k0, top) :: rest /\
    send top ans = Yield (ParseStep t (snd key)) k /\
    unwrap E depth t = Some (fst key) /\
    memo_get key (memo P) = Some a.

(** Every key with a suspension on the stack holds the tentative
    [ParseFailure], and no key has two suspensions. *)
Definition seeded (P : Parser) : Prop :=
  NoDup (keys (stack P)) /\
  forall k, In k (keys (stack P)) -> memo_get k (memo P) = Some ParseFailure.

(** ** A term that reads its own tentative entry *)

(** [Maybe = Opt(ForwardRef(lambda: Maybe))], parsed twice in a row. *)
Definition maybe_env : Env :=
  {| preparse := fun _ => Opt (ForwardRef 0);
     regex_match := fun _ _ _ => None;
     is_left_assoc := fun _ => false;
     is_right_assoc := fun _ => false;
     class_assignments := fun _ => [];
     lib_parse := fun _ _ _ => Raise TypeError |}.

Definition maybe_twice : Term := TTuple [ForwardRef 0; ForwardRef 0].

(** ** Positions that do not move backwards *)

(** An answer to a request at [q] that does not end before [q]. *)
Definition forward_ans (q : nat) (a : Ans) : Prop :=
  match a with
  | ParseResult _ q' => q <= q'
  | ParseFailure => True
  end.

(** A suspension started at [p] that, as long as it is answered forwards,
    requests only terms of [ok] at positions from [p] on and ends at a
    position from [p] on. *)
Fixpoint forward_gen (ok : Term -> Prop) (p : nat) (g : Gen) : Prop :=
  match g with
  | Yield (ParseStep t q) k =>
      ok t /\ p <= q /\ forall a, forward_ans q a -> forward_gen ok p (k (Some a))
  | Yield (Final a) _ => forward_ans p a
  | Stop => True
  | Raise _ => True
  end.

(** A set [ok] of terms that is a grammar without [Backtrack]: it holds
    the parts of its terms, what its forward references and struct classes
    stand for, regexes whose matches end at or after their start, and
    reducers and user terms whose suspensions are forward. *)
Definition backtrack_free (E : Env) (ok : Term -> Prop) : Prop :=
  forall t, ok t ->
    match t with
    | Backtrack => False
    | TTuple items => Forall ok items
    | Left a b => ok a /\ ok b
    | Opt a => ok a
    | ForwardRef r => ok (preparse E r)
    | TStruct cls =>
        if is_left_assoc E cls || is_right_assoc E cls
        then forall d, make_delegate E cls (_struct_fields E cls) = Ok d -> ok d
        else Forall ok (map snd (_struct_fields E cls))
    | TRegex re =>
        forall s pos m e, regex_match E re s pos = Some (m, e) -> pos <= e
    | ReduceLeft _ _ _ _ | ReduceRight _ _ _ _ | Custom _ =>
        forall src pos, forward_gen ok pos (lib_parse E t src pos)
    | TNone | TStr _ | End | Return _ | Literal _ => True
    end.

(** The two caches hold what [_struct_fields] and the delegate block
    compute. *)
Definition caches_ok (E : Env) (P : Parser) : Prop :=
  (forall cls fs, cache_get cls (fieldmap P) = Some fs ->
     fs = _struct_fields E cls) /\
  (forall cls d, cache_get cls (delegates P) = Some d ->
     make_delegate E cls (_struct_fields E cls) = Ok d).

Definition memo_forward (m : list (Key * Ans)) : Prop :=
  forall t p a, memo_get (t, p) m = Some a -> forward_ans p a.

(** The frames below the top one each wait for an answer to a request
    made at the position of the frame above. *)
Fixpoint waiting (ok : Term -> Prop) (s : list (Key * Generator)) (q : nat)
  : Prop :=
  match s with
  | [] => True
  | ((_, p), g) :: rest =>
      (exists k, g = Suspended k /\
         forall a, forward_ans q a -> forward_gen ok p (k (Some a))) /\
      waiting ok rest p
  end.

Definition stack_forward (ok : Term -> Prop) (s : list (Key * Generator))
  (ans : Sent) : Prop :=
  match s with
  | [] => True
  | ((_, p), g) :: rest => forward_gen ok p (send g ans) /\ waiting ok rest p
  end.

Definition forward_state (E : Env) (ok : Term -> Prop) (P : Parser)
  (ans : Sent) : Prop :=
  memo_forward (memo P) /\ caches_ok E P /\ stack_forward ok (stack P) ans.

(** [('a', Backtrack())] *)
Definition step_back : Term := TTuple [TStr "a"; Backtrack].

(** ** Talking to a suspension *)

(** Answer the sub-requests of a suspension from a list, in order: the
    requests it made, and its final answer if it got that far. *)
Fixpoint converse (g : Gen) (answers : list Ans)
  : list (Term * nat) * option Ans :=
  match g with
  | Yield (Final a) _ => ([], Some a)
  | Yield (ParseStep t p) k =>
      match answers with
      | [] => ([(t, p)], None)
      | a :: rest =>
          let (requests, final) := converse (k (Some a)) rest in
          ((t, p) :: requests, final)
      end
  | Stop => ([], None)
  | Raise _ => ([], None)
  end.

Definition successes (results : list (Value * nat)) : list Ans :=
  map (fun r => ParseResult (fst r) (snd r)) results.

(** The instance obtained from a new one by [setattr] of each pair. *)
Definition assign_all (cls : nat) (pairs : list (string * Value)) : Value :=
  fold_left (fun ans nv => setattr ans (fst nv) (snd nv)) pairs (VInstance cls []).

(** ** The run of [parse]: [Left(term, End)] at the bottom of the stack *)

(** What [End] can answer at [p]. *)
Definition end_valid (src : Source) (p : nat) (a : Ans) : Prop :=
  a = ParseFailure \/ (a = ParseResult VNone p /\ p = source_len src).

(** The memo entries of [End]: its answer, or the tentative failure of
    an [End] that is on the stack. *)
Definition end_memo (P : Parser) : Prop :=
  forall p a, memo_get (End, p) (memo P) = Some a ->
    (a = ParseResult VNone p /\ p = source_len (source P)) \/
    (a = ParseFailure /\
     (p <> source_len (source P) \/ In (End, p) (keys (stack P)))).

(** A suspension of [End] on the stack has not been started. *)
Definition end_frames (E : Env) (P : Parser) : Prop :=
  forall p g, In ((End, p), g) (stack P) ->
    g = Fresh (term_parse E End (source P) p).

(** Where the suspension of [Left(T, End)] started by [parse] stands, [t]
    being the term [T] resolves to: not started; waiting for [T] while the
    frames above it, the lowest one for [(t, 0)], are at work; answered for
    [T]; waiting for [End]; answered for [End]; or gone, with the answer
    of the parse. *)
Inductive bottom (E : Env) (T t : Term) (P : Parser) (ans : Sent) : Prop :=
| bottom_new :
    stack P = [((Left T End, 0), Fresh (term_parse E (Left T End) (source P) 0))] ->
    ans = None ->
    bottom E T t P ans
| bottom_first_pending above f :
    stack P = above ++ [f; ((Left T End, 0), Suspended (Left_after_a End))] ->
    fst f = (t, 0) ->
    bottom E T t P ans
| bottom_first_answered a :
    stack P = [((Left T End, 0), Suspended (Left_after_a End))] ->
    ans = Some a ->
    memo_get (t, 0) (memo P) = Some a ->
    bottom E T t P ans
| bottom_end_pending va pa :
    stack P = [((End, pa), Fresh (term_parse E End (source P) pa));
               ((Left T End, 0), Suspended (Left_after_b va))] ->
    ans = None ->
    memo_get (t, 0) (memo P) = Some (ParseResult va pa) ->
    bottom E T t P ans
| bottom_end_answered va pa a :
    stack P = [((Left T End, 0), Suspended (Left_after_b va))] ->
    ans = Some a ->
    end_valid (source P) pa a ->
    memo_get (t, 0) (memo P) = Some (ParseResult va pa) ->
    bottom E T t P ans
| bottom_done a :
    stack P = [] ->
    ans = Some a ->
    (a = ParseFailure \/
     exists va, a = ParseResult va (source_len (source P)) /\
                memo_get (t, 0) (memo P) = Some a) ->
    bottom E T t P ans.

Definition whole_inv (E : Env) (T t : Term) (P : Parser) (ans : Sent) : Prop :=
  seeded P /\ end_memo P /\ end_frames E P /\ bottom E T t P ans.

(** [n] turns of the loop. *)
Inductive turns_n (E : Env) (depth : nat)
  : nat -> Parser * Sent -> Parser * Sent -> Prop :=
| turns_n_0 S : turns_n E depth 0 S S
| turns_n_S n S1 S2 S3 :
    turn E depth S1 S2 -> turns_n E depth n S2 S3 ->
    turns_n E depth (S n) S1 S3.

(** The parser [B] of [parse(Left(T, End))] against the parser [A] of
    [parse(T)]: [B] has one more frame at the bottom, the suspension of
    [Left(Left(T, End), End)] waiting for its first answer, and its
    tentative failure in the memo. *)
Definition sim (T : Term) (A B : Parser) : Prop :=
  let LLk : Key := (Left (Left T End) End, 0) in
  source B = source A /\ fieldmap B = fieldmap A /\
  delegates B = delegates A /\
  stack B = stack A ++ [(LLk, Suspended (Left_after_a End))] /\
  memo_get LLk (memo B) = Some ParseFailure /\
  (memo_get LLk (memo A) = None \/ memo_get LLk (memo A) = Some ParseFailure) /\
  (forall k, k <> LLk -> memo_get k (memo B) = memo_get k (memo A)) /\
  ~ In LLk (keys (stack A)).

(** An outcome of the loop without the parser it ended in. *)
Definition answer_of (r : Result (Sent * Parser)) : Result Sent :=
  match r with
  | Ok (ans, _) => Ok ans
  | Exc e => Exc e
  | OutOfFuel => OutOfFuel
  end.

(** The last lines of [run] and of [parse] on the answer of the loop. *)
Definition finish (r : Result Sent) : Result Value :=
  match r with
  | Ok (Some ParseFailure) => Exc ParseError
  | Ok ans => ans_value ans
  | Exc e => Exc e
  | OutOfFuel => OutOfFuel
  end.

(** The parser of [parse(T)] after its first [_start], and the parser of
    [parse(Left(T, End))] after its first turn. *)
Definition whole_start (E : Env) (T : Term) (src : Source) : Parser :=
  {| source := src;
     memo := [((Left T End, 0), ParseFailure)];
     stack := [((Left T End, 0), Fresh (term_parse E (Left T End) src 0))];
     fieldmap := []; delegates := [] |}.

Definition twice_start (E : Env) (T : Term) (src : Source) : Parser :=
  {| source := src;
     memo := [((Left T End, 0), ParseFailure);
              ((Left (Left T End) End, 0), ParseFailure)];
     stack := [((Left T End, 0), Fresh (term_parse E (Left T End) src 0));
               ((Left (Left T End) End, 0), Suspended (Left_after_a End))];
     fieldmap := []; delegates := [] |}.

(** ** Two struct classes *)

(** Class 0 is [Pair(Struct)] with fields [left = 'a'], [right = 'b'];
    class 1 is [Dot(LeftAssoc)] with fields [left = Name], [op = '.'],
    [right = Name], [Name] being regex 0. *)
Definition struct_env : Env :=
  {| preparse := fun _ => TNone;
     regex_match := fun _ _ _ => None;
     is_left_assoc := fun cls => Nat.eqb cls 1;
     is_right_assoc := fun _ => false;
     class_assignments := fun cls =>
       match cls with
       | 0 => [("left", TStr "a"); ("right", TStr "b")]
       | _ => [("left", TRegex 0); ("op", TStr "."); ("right", TRegex 0)]
       end;
     lib_parse := fun _ _ _ => Raise TypeError |}.

(** ** Reading results *)


(** The terms whose suspension answers at once, without a sub-request:
    those [_parse] handles with [_parse_nothing], [_parse_string] and
    [_parse_regex], and the primitives of terms.py modelled above. *)
Definition leaf (t : Term) : bool :=
  match t with
  | TNone | TStr _ | TRegex _ | End | Backtrack | Return _ | Literal _ => true
  | _ => false
  end.

(** A frame that has been started. *)
Definition started (f : Key * Generator) : Prop :=
  match snd f with
  | Suspended _ => True
  | Fresh _ => False
  end.

(** What [send] gets is what the generator can take: [None] for a new
    one, an answer for a suspended one. *)
Definition send_fits (top : Generator) (ans : Sent) : Prop :=
  match top, ans with
  | Fresh _, None => True
  | Suspended _, Some _ => True
  | _, _ => False
  end.

(** Class 2 is a LeftAssoc struct whose constructor assigns nothing;
    class 3 is a RightAssoc struct with the single field [only = 'a']. *)
Definition odd_struct_env : Env :=
  {| preparse := fun _ => TNone;
     regex_match := fun _ _ _ => None;
     is_left_assoc := fun cls => Nat.eqb cls 2;
     is_right_assoc := fun cls => Nat.eqb cls 3;
     class_assignments := fun cls =>
       match cls with
       | 3 => [("only", TStr "a")]
       | _ => []
       end;
     lib_parse := fun _ _ _ => Raise TypeError |}.

(** A regex that matches one or more ['a'] at the start of the string. *)
Definition regex_env : Env :=
  {| preparse := fun _ => TNone;
     regex_match := fun _ s pos =>
       match pos, s with
       | 0, String "a" _ => Some (VMatch 0 0 1, 1)
       | _, _ => None
       end;
     is_left_assoc := fun _ => false;
     is_right_assoc := fun _ => false;
     class_assignments := fun _ => [];
     lib_parse := fun _ _ _ => Raise TypeError |}.

(** The key of the lowest frame of a stack. *)
Definition bottom_key (s : list (Key * Generator)) (d : Key) : Key :=
  fst (last s (d, Fresh Stop)).

(** While the stack is not empty its lowest frame is the one of the start
    key; once it is empty the answer is what the memo holds for that key. *)
Definition start_entry (k0 : Key) (P : Parser) (ans : Sent) : Prop :=
  match stack P with
  | [] => exists a, ans = Some a /\ memo_get k0 (memo P) = Some a
  | s => bottom_key s k0 = k0
  end.

(** The memo entries of the terms that answer at once are their own
    answers, the frames of such terms have not been started, and no such
    frame lies below the top of the stack. *)
Definition leaf_state (E : Env) (P : Parser) : Prop :=
  (forall t p a, leaf t = true -> memo_get (t, p) (memo P) = Some a ->
     (exists k, _parse_instance E P t p = Yield (Final a) k) \/
     (a = ParseFailure /\ In (t, p) (keys (stack P)))) /\
  (forall t p g, In ((t, p), g) (stack P) -> leaf t = true ->
     g = Fresh (_parse_instance E P t p)) /\
  (forall t p g, In ((t, p), g) (tl (stack P)) -> leaf t = false).

(** [('', '')]: the same literal requested twice at the same position. *)
Definition empty_twice : Term := TTuple [TStr ""; TStr ""].

(** * Properties *)

Lemma key_eqb_refl (k : Key) : key_eqb k k = true.
Proof. unfold key_eqb. destruct (Key_eq_dec k k); congruence. Qed.

Lemma key_eqb_eq (a b : Key) : key_eqb a b = true -> a = b.
Proof. unfold key_eqb. destruct (Key_eq_dec a b); congruence. Qed.

Lemma key_eqb_neq (a b : Key) : a <> b -> key_eqb a b = false.
Proof. unfold key_eqb. destruct (Key_eq_dec a b); congruence. Qed.

Lemma memo_get_set (k k' : Key) (a : Ans) (m : list (Key * Ans)) :
  memo_get k (memo_set k' a m) = if key_eqb k k' then Some a else memo_get k m.
Proof. reflexivity. Qed.

Lemma memo_get_set_same (k : Key) (a : Ans) (m : list (Key * Ans)) :
  memo_get k (memo_set k a m) = Some a.
Proof. rewrite memo_get_set, key_eqb_refl. reflexivity. Qed.

Lemma memo_get_set_other (k k' : Key) (a : Ans) (m : list (Key * Ans)) :
  k <> k' -> memo_get k (memo_set k' a m) = memo_get k m.
Proof. intros H. rewrite memo_get_set, key_eqb_neq; auto. Qed.

Section Driver.

Variable E : Env.
Variable depth : nat.

(** [_parse] touches only the two caches. *)
Lemma _parse_frame P term pos g P' :
  _parse E P term pos = Ok (g, P') ->
  source P' = source P /\ memo P' = memo P /\ stack P' = stack P.
Proof.
  unfold _parse. destruct term; try (intros [= <- <-]; auto).
  unfold _parse_struct.
  set (P1 := match cache_get cls (fieldmap P) with
             | Some _ => P | None => _ end).
  assert (H1 : source P1 = source P /\ memo P1 = memo P /\ stack P1 = stack P)
    by (subst P1; destruct (cache_get cls (fieldmap P)); auto).
  destruct (is_left_assoc E cls || is_right_assoc E cls).
  - unfold _parse_assoc_struct.
    destruct (cache_get cls (delegates P1)); [intros [= <- <-]; auto|].
    destruct (cache_get cls (fieldmap P1)) as [fs|]; try discriminate.
    destruct (make_delegate E cls fs); try discriminate.
    intros [= <- <-]. simpl. auto.
  - intros [= <- <-]. auto.
Qed.

(** The two ways [_start] returns. *)
Lemma _start_inv P term pos s P' :
  _start E depth P term pos = Ok (s, P') ->
  exists t, unwrap E depth term = Some t /\
    ((exists a, memo_get (t, pos) (memo P) = Some a /\ s = Some a /\ P' = P) \/
     (memo_get (t, pos) (memo P) = None /\ s = None /\
      exists g P2,
        _parse E (with_memo P (memo_set (t, pos) ParseFailure (memo P))) t pos
          = Ok (g, P2) /\
        P' = with_stack P2 (((t, pos), Fresh g) :: stack P2))).
Proof.
  unfold _start. destruct (unwrap E depth term) as [t|]; [|discriminate].
  intros H. exists t. split; [reflexivity|].
  destruct (memo_get (t, pos) (memo P)) as [a|].
  - left. exists a. inversion H. auto.
  - right. split; [reflexivity|].
    destruct (_parse E _ t pos) as [[g P2]| |] eqn:Hp; try discriminate.
    inversion H. split; [reflexivity|]. exists g, P2. auto.
Qed.

Lemma _start_hit P term pos t a :
  unwrap E depth term = Some t ->
  memo_get (t, pos) (memo P) = Some a ->
  _start E depth P term pos = Ok (Some a, P).
Proof. intros Hu Hm. unfold _start. rewrite Hu, Hm. reflexivity. Qed.

Lemma seeded_start P term pos s P' :
  seeded P -> _start E depth P term pos = Ok (s, P') -> seeded P'.
Proof.
  intros [Hnd Hm] H. apply _start_inv in H.
  destruct H as (t & _ & [(a & _ & _ & ->) | (Hnone & _ & g & P2 & Hp & ->)]).
  - split; assumption.
  - apply _parse_frame in Hp. destruct Hp as (_ & Hmemo & Hstack).
    unfold seeded, keys. simpl. rewrite Hmemo, Hstack. simpl. split.
    + constructor; [|exact Hnd]. intros Hin. apply Hm in Hin. congruence.
    + intros k [<-|Hin].
      * apply memo_get_set_same.
      * destruct (key_eqb k (t, pos)); auto.
Qed.

Lemma seeded_turn P ans P' ans' :
  seeded P -> turn E depth (P, ans) (P', ans') -> seeded P'.
Proof.
  intros [Hnd Hm] Ht. inversion Ht as [? ? key top rest ? ? Hs Hb]; subst.
  unfold loop_body in Hb. rewrite Hs in Hnd, Hm. simpl in Hnd, Hm.
  destruct (send top ans) as [[t p | a] k | | e]; try discriminate.
  - eapply seeded_start; [|exact Hb]. split; simpl; assumption.
  - inversion Hb; subst. unfold seeded. simpl. inversion Hnd; subst.
    split; [assumption|]. intros k' Hin.
    rewrite key_eqb_neq; [auto|]. intros ->. contradiction.
Qed.

Lemma seeded_init src : seeded (Parser_init src).
Proof. split; simpl; [constructor | intros k []]. Qed.

Lemma reachable_seeded src term P ans :
  reachable E depth src term P ans -> seeded P.
Proof.
  induction 1 as [P ans H | P ans P' ans' _ IH Ht].
  - eapply seeded_start; [apply seeded_init | exact H].
  - eapply seeded_turn; eassumption.
Qed.

(** C1. [_start] on a term resolving to [t] at [pos]: a key already in the
    memo is answered from it and the parser, its stack included, stays as it
    is; a new key gets [ParseFailure] in the memo before [_parse] is
    called, and only then a suspension on the stack; and in every state of a
    run, a key whose suspension is still on the stack is answered
    [ParseFailure]. *)
Theorem start_memo_seed src term0 P ans term pos t :
  reachable E depth src term0 P ans ->
  unwrap E depth term = Some t ->
  (forall a, memo_get (t, pos) (memo P) = Some a ->
     _start E depth P term pos = Ok (Some a, P)) /\
  (memo_get (t, pos) (memo P) = None ->
     forall s P', _start E depth P term pos = Ok (s, P') ->
       s = None /\
       memo_get (t, pos) (memo P') = Some ParseFailure /\
       exists g P2,
         _parse E (with_memo P (memo_set (t, pos) ParseFailure (memo P))) t pos
           = Ok (g, P2) /\
         stack P' = ((t, pos), Fresh g) :: stack P) /\
  (In (t, pos) (keys (stack P)) ->
     _start E depth P term pos = Ok (Some ParseFailure, P)).
Proof.
  intros Hr Hu. split; [|split].
  - intros a Ha. eapply _start_hit; eassumption.
  - intros Hnone s P' Hs. apply _start_inv in Hs.
    destruct Hs as (t' & Hu' & [(a & Ha & _) | (_ & -> & g & P2 & Hp & ->)]).
    + rewrite Hu in Hu'. inversion Hu'; subst. congruence.
    + rewrite Hu in Hu'. inversion Hu'; subst t'.
      pose proof (_parse_frame _ _ _ _ _ Hp) as (_ & Hmemo & Hstack).
      split; [reflexivity|]. simpl. split.
      * rewrite Hmemo. simpl. apply memo_get_set_same.
      * exists g, P2. split; [exact Hp|]. rewrite Hstack. reflexivity.
  - intros Hin. apply reachable_seeded in Hr. destruct Hr as [_ Hm].
    eapply _start_hit; [eassumption | auto].
Qed.

(** A settled entry survives a turn of the loop. *)
Lemma settled_turn P ans P' ans' k a :
  turn E depth (P, ans) (P', ans') ->
  memo_get k (memo P) = Some a -> ~ In k (keys (stack P)) ->
  memo_get k (memo P') = Some a /\ ~ In k (keys (stack P')).
Proof.
  intros Ht Hk Hout. inversion Ht as [? ? key top rest ? ? Hs Hb]; subst.
  unfold loop_body in Hb. rewrite Hs in Hout. simpl in Hout.
  destruct (send top ans) as [[t p | a0] kk | | e]; try discriminate.
  - apply _start_inv in Hb.
    destruct Hb as (t' & _ & [(b & _ & _ & ->) | (Hnone & _ & g & P2 & Hp & ->)]).
    + simpl. auto.
    + apply _parse_frame in Hp. destruct Hp as (_ & Hmemo & Hstack).
      simpl in Hnone. simpl. rewrite Hmemo, Hstack. simpl.
      assert (Hne : k <> (t', p)) by (intros ->; congruence).
      rewrite key_eqb_neq by assumption. split; [assumption|].
      intros [Heq | Hin]; [congruence | auto].
  - inversion Hb; subst. simpl.
    rewrite key_eqb_neq by (intros ->; auto). auto.
Qed.

Lemma settled_turns S S' :
  turns E depth S S' ->
  forall k a, memo_get k (memo (fst S)) = Some a ->
    ~ In k (keys (stack (fst S))) ->
    memo_get k (memo (fst S')) = Some a /\ ~ In k (keys (stack (fst S'))).
Proof.
  induction 1 as [S | S1 S2 S3 _ IH Ht]; intros k a Hk Hout; [auto|].
  destruct (IH k a Hk Hout) as [Hk2 Hout2].
  destruct S2 as [P2 s2], S3 as [P3 s3]. simpl in *.
  eapply settled_turn; eassumption.
Qed.

(** When a suspension emits its final answer, that answer is what the
    memo holds for its key once the frame is gone. *)
Lemma pop_writes_final P ans key top rest a0 kk P1 ans1 :
  seeded P ->
  stack P = (key, top) :: rest ->
  send top ans = Yield (Final a0) kk ->
  turn E depth (P, ans) (P1, ans1) ->
  ans1 = Some a0 /\ memo_get key (memo P1) = Some a0 /\
  ~ In key (keys (stack P1)).
Proof.
  intros [Hnd _] Hs Hsend Ht.
  inversion Ht as [? ? key' top' rest' ? ? Hs' Hb]; subst.
  rewrite Hs in Hs'. inversion Hs'; subst key' top' rest'.
  unfold loop_body in Hb. rewrite Hsend in Hb. inversion Hb; subst.
  simpl. rewrite key_eqb_refl. rewrite Hs in Hnd. simpl in Hnd.
  inversion Hnd; subst. auto.
Qed.

(** C3, as the code has it.  An entry read while its pair is still being
    evaluated is the tentative [ParseFailure]; an entry of a pair whose
    suspension has left the stack is the final answer that suspension
    emitted, it never changes for the rest of the parse, and every later
    evaluation of the pair returns it. *)
Theorem memo_settled_entries_are_final src term0 P ans P' ans' k a :
  reachable E depth src term0 P ans ->
  turns E depth (P, ans) (P', ans') ->
  memo_get k (memo P) = Some a ->
  (In k (keys (stack P)) -> a = ParseFailure) /\
  (~ In k (keys (stack P)) ->
     memo_get k (memo P') = Some a /\ ~ In k (keys (stack P')) /\
     forall a2, reads E depth P' ans' k a2 -> a2 = a) /\
  (forall top rest a0 kk P1 ans1,
     stack P = (k, top) :: rest ->
     send top ans = Yield (Final a0) kk ->
     turn E depth (P, ans) (P1, ans1) ->
     memo_get k (memo P1) = Some a0 /\ ~ In k (keys (stack P1))).
Proof.
  intros Hr Hts Hk. pose proof (reachable_seeded _ _ _ _ Hr) as Hseed.
  split; [|split].
  - intros Hin. destruct Hseed as [_ Hm]. apply Hm in Hin. congruence.
  - intros Hout.
    destruct (settled_turns _ _ Hts k a Hk Hout) as [Hk' Hout'].
    simpl in Hk', Hout'. split; [assumption|]. split; [assumption|].
    intros a2 (k0 & top & rest & t & kk & _ & _ & _ & Hread). congruence.
  - intros top rest a0 kk P1 ans1 Hs Hsend Ht.
    eapply pop_writes_final in Ht; try eassumption. tauto.
Qed.

End Driver.

(** C3 fails as stated: in the parse of [maybe_twice] on the empty string
    the pair [(Maybe, 0)] is evaluated twice through the memo; the first
    evaluation, made while the pair is in progress, returns the tentative
    [ParseFailure], the second returns the success [(None, 0)]. *)
Lemma memo_read_not_transparent :
  exists P1 s1 P2 s2,
    reachable maybe_env 1 (SText "") maybe_twice P1 s1 /\
    turns maybe_env 1 (P1, s1) (P2, s2) /\
    reads maybe_env 1 P1 s1 (Opt (ForwardRef 0), 0) ParseFailure /\
    reads maybe_env 1 P2 s2 (Opt (ForwardRef 0), 0) (ParseResult VNone 0) /\
    ParseFailure <> ParseResult VNone 0.
Proof.
  do 4 eexists. split; [|split; [|split; [|split]]].
  - eapply reach_turn.
    + eapply reach_start. reflexivity.
    + eapply turn_body; reflexivity.
  - eapply turns_step.
    + eapply turns_step.
      * apply turns_refl.
      * eapply turn_body; reflexivity.
    + eapply turn_body; reflexivity.
  - do 5 eexists. split; [reflexivity|]. split; [reflexivity|].
    split; reflexivity.
  - do 5 eexists. split; [reflexivity|]. split; [reflexivity|].
    split; reflexivity.
  - discriminate.
Qed.

(** ** Positions in a grammar without Backtrack *)

Section Forward.

Variable E : Env.
Variable depth : nat.
Variable ok : Term -> Prop.
Hypothesis Hbf : backtrack_free E ok.

Lemma unwrap_ok d t t' :
  ok t -> unwrap E d t = Some t' ->
  ok t' /\ forall r, t' <> ForwardRef r.
Proof.
  revert t. induction d as [|d IH]; intros t Hok Hu.
  - destruct t; simpl in Hu; try discriminate;
      inversion Hu; subst; split; auto; discriminate.
  - destruct t; simpl in Hu;
      try (inversion Hu; subst; split; [assumption | discriminate]).
    apply (IH (preparse E ref)); [|assumption]. exact (Hbf _ Hok).
Qed.

Lemma tuple_loop_forward p0 items :
  Forall ok items ->
  forall acc p, p0 <= p -> forward_gen ok p0 (tuple_loop items acc p).
Proof.
  induction 1 as [|item rest Hitem _ IH]; intros acc p Hle; simpl.
  - exact Hle.
  - split; [assumption|]. split; [assumption|].
    intros [|v q] Ha; simpl in *; [exact I|]. apply IH. lia.
Qed.

Lemma struct_loop_forward p0 fields :
  Forall ok (map snd fields) ->
  forall inst p, p0 <= p -> forward_gen ok p0 (struct_loop fields inst p).
Proof.
  induction fields as [|[name t] rest IH]; intros Hall inst p Hle; simpl.
  - exact Hle.
  - inversion Hall; subst. split; [assumption|]. split; [assumption|].
    intros [|v q] Ha; simpl in *; [exact I|]. apply IH; [assumption | lia].
Qed.

Lemma instance_forward P t pos :
  ok t -> (forall r, t <> ForwardRef r) -> (forall c, t <> TStruct c) ->
  forward_gen ok pos (_parse_instance E P t pos).
Proof.
  intros Hok Hfr Hst. pose proof (Hbf _ Hok) as Ht.
  destruct t; simpl in *.
  - lia.
  - exfalso. eapply Hst. reflexivity.
  - unfold _parse_string, _parse_text, _parse_token.
    destruct (source P) as [str|l].
    + destruct (String.eqb _ _); simpl; lia.
    + destruct (Nat.leb _ _); [exact I|]. unfold _parse_token_rest.
      destruct (source_index (STokens l) pos) as [x|]; [|exact I].
      destruct (getattr_content x) as [c|]; [|exact I].
      destruct (value_eqb _ _); simpl; lia.
  - unfold _parse_regex, _parse_regex_rest. destruct (source P) as [str|l].
    + destruct (regex_match E re str pos) as [[m e]|] eqn:Hm; simpl; [|exact I].
      eapply Ht. eassumption.
    + exact I.
  - apply tuple_loop_forward; [assumption | lia].
  - exfalso. eapply Hfr. reflexivity.
  - destruct Ht as [Ha Hb]. split; [assumption|]. split; [lia|].
    intros [|va pa] H1; simpl in *; [exact I|].
    split; [assumption|]. split; [assumption|].
    intros [|vb pb] H2; simpl in *; [exact I | lia].
  - destruct (Nat.eqb pos (source_len (source P))); simpl; lia.
  - contradiction.
  - split; [assumption|]. split; [lia|].
    intros [|v p] H1; simpl in *; lia.
  - lia.
  - destruct (source_index _ _) as [x|]; [|exact I].
    destruct (value_eqb _ _); simpl; lia.
  - apply Ht.
  - apply Ht.
  - apply Ht.
Qed.

Lemma _parse_caches P t pos g P' :
  caches_ok E P -> _parse E P t pos = Ok (g, P') -> caches_ok E P'.
Proof.
  intros [Hf Hd]. unfold _parse.
  destruct t; try (intros [= <- <-]; split; assumption).
  unfold _parse_struct.
  set (P1 := match cache_get cls (fieldmap P) with
             | Some _ => P | None => _ end).
  assert (H1 : caches_ok E P1).
  { subst P1. destruct (cache_get cls (fieldmap P)) eqn:Hc; [split; assumption|].
    split; simpl; [|assumption].
    intros c fs. destruct (Nat.eqb c cls) eqn:Hcc.
    - apply Nat.eqb_eq in Hcc. subst c. intros [= <-]. reflexivity.
    - apply Hf. }
  destruct H1 as [Hf1 Hd1].
  destruct (is_left_assoc E cls || is_right_assoc E cls).
  - unfold _parse_assoc_struct.
    destruct (cache_get cls (delegates P1)); [intros [= <- <-]; split; assumption|].
    destruct (cache_get cls (fieldmap P1)) as [fs|] eqn:Hfs; try discriminate.
    destruct (make_delegate E cls fs) as [d| |] eqn:Hmk; try discriminate.
    intros [= <- <-]. split; simpl; [assumption|].
    intros c d'. destruct (Nat.eqb c cls) eqn:Hcc.
    + apply Nat.eqb_eq in Hcc. subst c. intros [= <-].
      apply Hf1 in Hfs. subst fs. assumption.
    + apply Hd1.
  - intros [= <- <-]. split; assumption.
Qed.

Lemma make_delegate_shape cls fs d :
  make_delegate E cls fs = Ok d ->
  (forall r, d <> ForwardRef r) /\ (forall c, d <> TStruct c).
Proof.
  unfold make_delegate. destruct fs as [|f0 fs]; [discriminate|].
  destruct (is_left_assoc E cls); intros [= <-]; split; discriminate.
Qed.

Lemma _parse_forward P t pos g P' :
  ok t -> (forall r, t <> ForwardRef r) -> caches_ok E P ->
  _parse E P t pos = Ok (g, P') -> forward_gen ok pos g.
Proof.
  intros Hok Hfr Hc. pose proof (Hbf _ Hok) as Ht. unfold _parse.
  destruct t;
    try (match goal with
         | |- Ok (_parse_instance E P ?t0 pos, P) = _ -> _ =>
             intros [= <- <-]; apply (instance_forward P t0);
             [assumption | assumption | discriminate]
         end).
  unfold _parse_struct.
  set (P1 := match cache_get cls (fieldmap P) with
             | Some _ => P | None => _ end).
  assert (H1 : caches_ok E P1 /\
               cache_get cls (fieldmap P1) = Some (_struct_fields E cls)).
  { subst P1. destruct Hc as [Hf Hd].
    destruct (cache_get cls (fieldmap P)) as [fs|] eqn:Hfs.
    - split; [split; assumption|]. rewrite Hfs. f_equal. auto.
    - split.
      + split; simpl; [|assumption].
        intros c fs. destruct (Nat.eqb c cls) eqn:Hcc.
        * apply Nat.eqb_eq in Hcc. subst c. intros [= <-]. reflexivity.
        * apply Hf.
      + simpl. rewrite Nat.eqb_refl. reflexivity. }
  destruct H1 as [[Hf1 Hd1] Hfs]. simpl in Ht.
  destruct (is_left_assoc E cls || is_right_assoc E cls).
  - unfold _parse_assoc_struct.
    destruct (cache_get cls (delegates P1)) as [d|] eqn:Hdel.
    + intros [= <- <-]. apply Hd1 in Hdel.
      destruct (make_delegate_shape _ _ _ Hdel).
      apply instance_forward; auto.
    + rewrite Hfs.
      destruct (make_delegate E cls (_struct_fields E cls)) as [d| |] eqn:Hmk;
        try discriminate.
      intros [= <- <-]. destruct (make_delegate_shape _ _ _ Hmk).
      apply instance_forward; auto.
  - intros [= <- <-]. unfold _parse_simple_struct. rewrite Hfs.
    apply struct_loop_forward; [assumption | lia].
Qed.

Lemma forward_start P term pos k key rest s P' :
  memo_forward (memo P) -> caches_ok E P ->
  stack P = (key, Suspended k) :: rest ->
  ok term ->
  (forall a, forward_ans pos a -> forward_gen ok (snd key) (k (Some a))) ->
  waiting ok rest (snd key) ->
  _start E depth P term pos = Ok (s, P') ->
  forward_state E ok P' s.
Proof.
  intros Hm Hc Hs Hok Hk Hw H. apply _start_inv in H.
  destruct H as (t & Hu & [(a & Ha & -> & ->) | (Hnone & -> & g & P2 & Hp & ->)]).
  - split; [assumption|]. split; [assumption|].
    rewrite Hs. destruct key as [t0 p0]. simpl in *. split; [|assumption].
    apply Hk. eapply Hm. eassumption.
  - destruct (unwrap_ok _ _ _ Hok Hu) as [Hok' Hfr].
    pose proof (_parse_frame _ _ _ _ _ _ Hp) as (_ & Hmemo & Hstack).
    assert (Hc1 : caches_ok E (with_memo P (memo_set (t, pos) ParseFailure (memo P))))
      by exact Hc.
    split; [|split].
    + simpl. rewrite Hmemo. intros t1 p1 a1. simpl.
      destruct (key_eqb (t1, p1) (t, pos)); [intros [= ?]; subst; exact I | apply Hm].
    + pose proof (_parse_caches _ _ _ _ _ Hc1 Hp) as Hc2. exact Hc2.
    + simpl. split.
      * eapply _parse_forward; eassumption.
      * rewrite Hstack. simpl. rewrite Hs. destruct key as [t0 p0]. simpl in *.
        split; [|assumption]. exists k. auto.
Qed.

Lemma forward_turn P ans P' ans' :
  forward_state E ok P ans -> turn E depth (P, ans) (P', ans') ->
  forward_state E ok P' ans'.
Proof.
  intros (Hm & Hc & Hs) Ht.
  inversion Ht as [? ? key top rest ? ? Hst Hb]; subst.
  unfold loop_body in Hb. rewrite Hst in Hs. destruct key as [t0 p0].
  simpl in Hs. destruct Hs as [Hg Hw].
  destruct (send top ans) as [[t p | a] k | | e]; try discriminate.
  - simpl in Hg. destruct Hg as (Hok & Hle & Hk).
    eapply (forward_start (with_stack P ((t0, p0, Suspended k) :: rest))
              t p k (t0, p0) rest); try eassumption; reflexivity.
  - inversion Hb; subst. simpl in Hg. split; [|split].
    + intros t1 p1 a1. simpl.
      destruct (key_eqb (t1, p1) (t0, p0)) eqn:Hk.
      * apply key_eqb_eq in Hk. inversion Hk; subst. intros [= <-]. assumption.
      * apply Hm.
    + exact Hc.
    + simpl. destruct rest as [|[[t1 p1] g1] rest1]; [exact I|].
      simpl in Hw. destruct Hw as [(k1 & -> & Hk1) Hw]. simpl. auto.
Qed.

Lemma forward_reachable src term P ans :
  ok term -> reachable E depth src term P ans -> forward_state E ok P ans.
Proof.
  intros Hok. induction 1 as [P ans H | P ans P' ans' _ IH Ht].
  - apply _start_inv in H.
    destruct H as (t & Hu & [(a & Ha & _) | (_ & -> & g & P2 & Hp & ->)]).
    + discriminate.
    + destruct (unwrap_ok _ _ _ Hok Hu) as [Hok' Hfr].
      pose proof (_parse_frame _ _ _ _ _ _ Hp) as (_ & Hmemo & Hstack).
      assert (Hc : caches_ok E (with_memo (Parser_init src)
                     (memo_set (t, 0) ParseFailure (memo (Parser_init src)))))
        by (split; intros c x; discriminate).
      split; [|split].
      * simpl. rewrite Hmemo. intros t1 p1 a1. simpl.
        destruct (key_eqb (t1, p1) (t, 0)); [intros [= ?]; subst; exact I | discriminate].
      * exact (_parse_caches _ _ _ _ _ Hc Hp).
      * simpl. split; [eapply _parse_forward; eassumption|].
        rewrite Hstack. exact I.
  - eapply forward_turn; eassumption.
Qed.

(** C4, as the code has it.  In a parse of a grammar that does not use
    [Backtrack] (and whose regexes, reducers and user terms do not report a
    position before their start), every evaluation of a term at [p] that
    the memo records as a success ended at a position [p' >= p]. *)
Theorem positions_forward_without_backtrack src term P ans t p v p' :
  ok term ->
  reachable E depth src term P ans ->
  memo_get (t, p) (memo P) = Some (ParseResult v p') ->
  p <= p'.
Proof.
  intros Hok Hr Hm. destruct (forward_reachable _ _ _ _ Hok Hr) as (Hmf & _).
  exact (Hmf _ _ _ Hm).
Qed.

End Forward.

(** C4 fails as stated: in the parse of [('a', Backtrack())] on ["a"] the
    term [Backtrack] is evaluated at position 1 and succeeds with
    position 0. *)
Lemma backtrack_moves_back :
  exists P ans,
    reachable empty_env 0 (SText "a") step_back P ans /\
    memo_get (Backtrack, 1) (memo P) = Some (ParseResult VNone 0) /\
    ~ 1 <= 0.
Proof.
  do 2 eexists. split; [|split].
  - eapply reach_turn; [eapply reach_turn; [eapply reach_turn; [eapply reach_turn;
      [eapply reach_start; reflexivity|]|]|]|];
      (eapply turn_body; reflexivity).
  - reflexivity.
  - lia.
Qed.

(** ** Structs *)

Lemma last_cons_default {A : Type} (l : list A) (a d : A) :
  last (a :: l) d = last l a.
Proof.
  revert a d. induction l as [|b l IH]; intros a d; [reflexivity|].
  change (last (a :: b :: l) d) with (last (b :: l) d).
  rewrite IH. symmetry. apply IH.
Qed.

Lemma struct_loop_succeeds fields :
  forall inst pos results,
    List.length results = List.length fields ->
    converse (struct_loop fields inst pos) (successes results) =
      (combine (map snd fields) (pos :: map snd results),
       Some (ParseResult
               (fold_left (fun ans nv => setattr ans (fst nv) (snd nv))
                          (combine (map fst fields) (map fst results)) inst)
               (last (map snd results) pos))).
Proof.
  induction fields as [|[name t] rest IH]; intros inst pos [|[v p] results] Hlen;
    try discriminate; [reflexivity|].
  simpl in Hlen. injection Hlen as Hlen.
  cbn [struct_loop successes map converse fst snd].
  change (map (fun r => ParseResult (fst r) (snd r)) results)
    with (successes results).
  rewrite (IH (setattr inst name v) p results Hlen).
  rewrite last_cons_default. reflexivity.
Qed.

Lemma struct_loop_fails fields :
  forall inst pos results more,
    List.length results < List.length fields ->
    converse (struct_loop fields inst pos)
             (successes results ++ ParseFailure :: more) =
      (combine (map snd fields) (pos :: map snd results), Some ParseFailure).
Proof.
  induction fields as [|[name t] rest IH]; intros inst pos results more Hlen;
    simpl in Hlen; [lia|].
  destruct results as [|[v p] results].
  - cbn. destruct (map snd rest); reflexivity.
  - simpl in Hlen.
    cbn [struct_loop successes map converse fst snd app].
    change (map (fun r => ParseResult (fst r) (snd r)) results)
      with (successes results).
    rewrite (IH (setattr inst name v) p results more) by lia.
    reflexivity.
Qed.

(** C5. For a struct class that is neither LeftAssoc nor RightAssoc,
    [_parse] gives a suspension that starts from a new instance and
    requests the field terms in the order of their assignment, the first at
    the incoming position and each next one where the previous answer
    ended; when every field succeeds it ends with the instance on which
    each value was stored under its field name, at the position after the
    last field; when a field fails it ends with [ParseFailure] after the
    requests made so far. *)
Theorem simple_struct_fields_in_order E P cls pos results :
  is_left_assoc E cls = false ->
  is_right_assoc E cls = false ->
  caches_ok E P ->
  exists g P',
    _parse E P (TStruct cls) pos = Ok (g, P') /\
    (List.length results = List.length (class_assignments E cls) ->
       converse g (successes results) =
         (combine (map snd (class_assignments E cls)) (pos :: map snd results),
          Some (ParseResult
                  (assign_all cls
                     (combine (map fst (class_assignments E cls))
                              (map fst results)))
                  (last (map snd results) pos)))) /\
    (List.length results < List.length (class_assignments E cls) ->
       forall more,
         converse g (successes results ++ ParseFailure :: more) =
           (combine (map snd (class_assignments E cls)) (pos :: map snd results),
            Some ParseFailure)).
Proof.
  intros Hl Hr [Hf _]. unfold _parse, _parse_struct. rewrite Hl, Hr. simpl.
  eexists. eexists. split; [reflexivity|].
  assert (Hg : _parse_simple_struct
                 match cache_get cls (fieldmap P) with
                 | Some _ => P
                 | None => with_fieldmap P ((cls, _struct_fields E cls) :: fieldmap P)
                 end cls pos
               = struct_loop (class_assignments E cls) (VInstance cls []) pos).
  { unfold _parse_simple_struct.
    destruct (cache_get cls (fieldmap P)) as [fs|] eqn:Hc.
    - rewrite Hc. apply Hf in Hc. subst fs. reflexivity.
    - simpl. rewrite Nat.eqb_refl. reflexivity. }
  rewrite Hg. split.
  - intros Hlen. apply struct_loop_succeeds. assumption.
  - intros Hlen more. apply struct_loop_fails. assumption.
Qed.

Lemma set_attr_new name v attrs :
  ~ In name (map fst attrs) -> set_attr name v attrs = attrs ++ [(name, v)].
Proof.
  induction attrs as [|[n w] rest IH]; intros Hnin; [reflexivity|].
  simpl in *. destruct (String.eqb n name) eqn:Heq.
  - apply String.eqb_eq in Heq. tauto.
  - rewrite IH by tauto. reflexivity.
Qed.

Lemma assign_distinct cls names :
  NoDup names ->
  forall values attrs,
    (forall n, In n names -> ~ In n (map fst attrs)) ->
    fold_left (fun ans nv => setattr ans (fst nv) (snd nv))
              (combine names values) (VInstance cls attrs)
    = VInstance cls (attrs ++ combine names values).
Proof.
  induction 1 as [|n names Hn Hnd IH]; intros values attrs Hfresh.
  - simpl. rewrite app_nil_r. reflexivity.
  - destruct values as [|v values]; simpl; [rewrite app_nil_r; reflexivity|].
    rewrite set_attr_new by (apply Hfresh; left; reflexivity).
    rewrite IH.
    + rewrite <- app_assoc. reflexivity.
    + intros m Hm. rewrite map_app, in_app_iff. simpl.
      intros [Hin | [Heq | []]].
      * eapply Hfresh; [right; eassumption | assumption].
      * subst. contradiction.
Qed.

Lemma make_delegate_fields E cls first middles last_ :
  make_delegate E cls (first :: middles ++ [last_]) =
    Ok (let names := fst first :: map fst middles ++ [fst last_] in
        if is_left_assoc E cls
        then ReduceLeft (snd first) (TTuple (map snd middles)) (snd last_)
                        (BuildStruct cls names)
        else ReduceRight (snd first) (TTuple (map snd middles)) (snd last_)
                         (BuildStruct cls names)).
Proof.
  unfold make_delegate, _assoc_struct_builder.
  cbn [tl]. rewrite removelast_last.
  change (first :: middles ++ [last_]) with ((first :: middles) ++ [last_]).
  rewrite last_last. rewrite map_app. reflexivity.
Qed.

(** C6. For a struct class that is LeftAssoc or RightAssoc, with fields
    [first], [middles...], [last] in the order of their assignment,
    [_parse] on the class gives exactly the suspension [_parse] gives on
    the delegate [d]: [ReduceLeft(first, middles, last, build)] for a
    LeftAssoc class, [ReduceRight] of the same for a RightAssoc one; [d] is
    then in the delegate cache and is what later parses of the class use;
    and [build(left, ops, right)] returns a new instance of the class with
    the values [left, ops..., right] under the field names in order. *)
Theorem assoc_struct_parses_delegate E P cls pos first middles last_ :
  caches_ok E P ->
  class_assignments E cls = first :: middles ++ [last_] ->
  is_left_assoc E cls || is_right_assoc E cls = true ->
  exists d names g P',
    names = fst first :: map fst middles ++ [fst last_] /\
    (is_left_assoc E cls = true ->
       d = ReduceLeft (snd first) (TTuple (map snd middles)) (snd last_)
                      (BuildStruct cls names)) /\
    (is_left_assoc E cls = false ->
       d = ReduceRight (snd first) (TTuple (map snd middles)) (snd last_)
                       (BuildStruct cls names)) /\
    _parse E P (TStruct cls) pos = Ok (g, P') /\
    _parse E P' d pos = Ok (g, P') /\
    g = lib_parse E d (source P) pos /\
    cache_get cls (delegates P') = Some d /\
    (forall pos2, _parse E P' (TStruct cls) pos2 = _parse E P' d pos2) /\
    (forall left ops right,
       build cls names left (VTuple ops) right
         = Ok (assign_all cls (combine names (left :: ops ++ [right])))) /\
    (forall left ops right, NoDup names ->
       build cls names left (VTuple ops) right
         = Ok (VInstance cls (combine names (left :: ops ++ [right])))).
Proof.
  intros [Hf Hd] Hfields Hassoc.
  pose proof (make_delegate_fields E cls first middles last_) as Hmk.
  cbv zeta in Hmk.
  set (names := fst first :: map fst middles ++ [fst last_]) in *.
  set (d := if is_left_assoc E cls
            then ReduceLeft (snd first) (TTuple (map snd middles)) (snd last_)
                            (BuildStruct cls names)
            else ReduceRight (snd first) (TTuple (map snd middles)) (snd last_)
                             (BuildStruct cls names)) in *.
  assert (Hinst : forall Q p, _parse_instance E Q d p = lib_parse E d (source Q) p).
  { intros Q p. subst d. destruct (is_left_assoc E cls); reflexivity. }
  assert (Hpd : forall Q p, _parse E Q d p = Ok (_parse_instance E Q d p, Q)).
  { intros Q p. subst d. destruct (is_left_assoc E cls); reflexivity. }
  set (P1 := match cache_get cls (fieldmap P) with
             | Some _ => P
             | None => with_fieldmap P ((cls, _struct_fields E cls) :: fieldmap P)
             end).
  assert (H1 : cache_get cls (fieldmap P1) = Some (first :: middles ++ [last_])
               /\ delegates P1 = delegates P /\ source P1 = source P).
  { subst P1. destruct (cache_get cls (fieldmap P)) as [fs|] eqn:Hc.
    - rewrite Hc. apply Hf in Hc. subst fs. unfold _struct_fields.
      rewrite Hfields. auto.
    - simpl. rewrite Nat.eqb_refl. unfold _struct_fields. rewrite Hfields. auto. }
  destruct H1 as (Hfm & Hdel & Hsrc).
  assert (Hstruct : forall Q p,
            cache_get cls (delegates Q) = Some d ->
            cache_get cls (fieldmap Q) <> None ->
            _parse E Q (TStruct cls) p = Ok (_parse_instance E Q d p, Q)).
  { intros Q p HQ HQf. unfold _parse, _parse_struct. rewrite Hassoc.
    destruct (cache_get cls (fieldmap Q)); [|congruence].
    unfold _parse_assoc_struct. rewrite HQ. reflexivity. }
  assert (Hbuild : forall left ops right,
            build cls names left (VTuple ops) right
              = Ok (assign_all cls (combine names (left :: ops ++ [right]))))
    by reflexivity.
  destruct (cache_get cls (delegates P)) as [d0|] eqn:Hcache.
  - pose proof (Hd _ _ Hcache) as Hd0. unfold _struct_fields in Hd0.
    rewrite Hfields, Hmk in Hd0. injection Hd0 as <-.
    exists d, names, (_parse_instance E P1 d pos), P1.
    assert (Hc1 : cache_get cls (delegates P1) = Some d) by (rewrite Hdel; assumption).
    split; [reflexivity|]. split; [intros Hl; subst d; rewrite Hl; reflexivity|].
    split; [intros Hl; subst d; rewrite Hl; reflexivity|].
    split.
    { unfold _parse, _parse_struct. fold P1. rewrite Hassoc.
      unfold _parse_assoc_struct. rewrite Hc1. reflexivity. }
    split; [apply Hpd|]. split; [rewrite Hinst, Hsrc; reflexivity|].
    split; [assumption|].
    split; [intros pos2; rewrite Hpd; apply Hstruct; [assumption | congruence]|].
    split; [assumption|].
    intros left ops right Hnd. rewrite Hbuild. unfold assign_all.
    rewrite assign_distinct; [reflexivity | assumption | intros n _ []].
  - set (P2 := with_delegates P1 ((cls, d) :: delegates P1)).
    exists d, names, (_parse_instance E P2 d pos), P2.
    assert (Hc2 : cache_get cls (delegates P2) = Some d)
      by (subst P2; simpl; rewrite Nat.eqb_refl; reflexivity).
    split; [reflexivity|]. split; [intros Hl; subst d; rewrite Hl; reflexivity|].
    split; [intros Hl; subst d; rewrite Hl; reflexivity|].
    split.
    { unfold _parse, _parse_struct. fold P1. rewrite Hassoc.
      assert (Hn : cache_get cls (delegates P1) = None)
        by (rewrite Hdel; assumption).
      unfold _parse_assoc_struct. rewrite Hn, Hfm, Hmk. reflexivity. }
    split; [apply Hpd|]. split; [rewrite Hinst; subst P2; simpl; rewrite Hsrc; reflexivity|].
    split; [assumption|].
    split; [intros pos2; rewrite Hpd; apply Hstruct;
            [assumption | subst P2; simpl; congruence]|].
    split; [assumption|].
    intros left ops right Hnd. rewrite Hbuild. unfold assign_all.
    rewrite assign_distinct; [reflexivity | assumption | intros n _ []].
Qed.

(** ** Literals on a token source *)

Lemma value_eqb_eq (a b : Value) : value_eqb a b = true <-> a = b.
Proof.
  unfold value_eqb. destruct (Value_eq_dec a b); split; congruence.
Qed.

(** C7. On a token source, the suspension of a string term [v] at [pos]
    succeeds exactly when [pos] is inside the source and the element there
    has content [v]; it then yields [(v, pos + 1)]; and at or past the end
    of the source it yields [ParseFailure] instead of raising. *)
Theorem token_literal_matches_content E P v pos l :
  source P = STokens l ->
  exists g,
    _parse E P (TStr v) pos = Ok (g, P) /\
    ((exists val p' k, g = Yield (Final (ParseResult val p')) k) <->
       (pos < List.length l /\
        exists x, nth_error l pos = Some x /\
                  getattr_content x = Some (VStr v))) /\
    (forall val p' k, g = Yield (Final (ParseResult val p')) k ->
       val = VStr v /\ p' = pos + 1) /\
    (List.length l <= pos -> exists k, g = Yield (Final ParseFailure) k).
Proof.
  intros Hsrc. exists (_parse_token (STokens l) v pos).
  split; [unfold _parse; simpl; rewrite Hsrc; reflexivity|].
  unfold _parse_token, _parse_token_rest. simpl.
  destruct (Nat.leb (List.length l) pos) eqn:Hle.
  - apply Nat.leb_le in Hle. split; [|split].
    + split.
      * intros (val & p' & k & H). discriminate.
      * intros [Hlt _]. lia.
    + intros val p' k H. discriminate.
    + intros _. eexists. reflexivity.
  - apply Nat.leb_gt in Hle.
    destruct (nth_error l pos) as [x|] eqn:Hx.
    2:{ apply nth_error_None in Hx. lia. }
    destruct (getattr_content x) as [c|] eqn:Hc.
    + destruct (value_eqb c (VStr v)) eqn:Heq.
      * apply value_eqb_eq in Heq. subst c. split; [|split].
        -- split.
           ++ intros _. split; [assumption|]. exists x. auto.
           ++ intros _. do 3 eexists. reflexivity.
        -- intros val p' k H. inversion H. auto.
        -- intros H. lia.
      * split; [|split].
        -- split.
           ++ intros (val & p' & k & H). discriminate.
           ++ intros (_ & y & Hy & Hcy). inversion Hy; subst y.
              rewrite Hc in Hcy. inversion Hcy; subst c.
              assert (value_eqb (VStr v) (VStr v) = true)
                by (apply value_eqb_eq; reflexivity).
              congruence.
        -- intros val p' k H. discriminate.
        -- intros H. lia.
    + split; [|split].
      * split.
        -- intros (val & p' & k & H). discriminate.
        -- intros (_ & y & Hy & Hcy). inversion Hy; subst y. congruence.
      * intros val p' k H. discriminate.
      * intros H. lia.
Qed.

(** C10. On a token source, a string term evaluated at a position inside
    the source whose element has no [content] attribute makes its
    suspension raise AttributeError when the driver first sends to it; the
    loop of [run] lets it through, so [parse_prefix] and [parse] end with
    AttributeError, not with a failure or a ParseError. *)
Theorem token_without_content_raises E depth fuel P v pos l x key rest :
  source P = STokens l ->
  nth_error l pos = Some x ->
  getattr_content x = None ->
  _parse E P (TStr v) pos = Ok (Raise AttributeError, P) /\
  (stack P = (key, Fresh (Raise AttributeError)) :: rest ->
     run_loop E depth (S fuel) P None = Exc AttributeError) /\
  (pos = 0 ->
     parse_prefix E depth (S fuel) (TStr v) (STokens l) = Exc AttributeError /\
     parse E depth (S (S fuel)) (TStr v) (STokens l) = Exc AttributeError).
Proof.
  intros Hsrc Hx Hc.
  assert (Hg : _parse_token (STokens l) v pos = Raise AttributeError).
  { unfold _parse_token, _parse_token_rest. simpl.
    assert (Hlt : pos < List.length l)
      by (apply nth_error_Some; congruence).
    apply Nat.leb_gt in Hlt. rewrite Hlt, Hx, Hc. reflexivity. }
  split; [|split].
  - unfold _parse. simpl. rewrite Hsrc. simpl. rewrite Hg. reflexivity.
  - intros Hs. simpl. rewrite Hs. reflexivity.
  - intros ->. destruct l as [|y l']; [discriminate|].
    simpl in Hx. injection Hx as ->. split.
    + unfold parse_prefix, run, drive, _start.
      destruct depth; cbn -[getattr_content]; unfold _parse_token_rest;
        cbn -[getattr_content]; rewrite Hc; reflexivity.
    + unfold parse, parse_prefix, run, drive, _start.
      destruct depth; cbn -[getattr_content]; unfold _parse_token_rest;
        cbn -[getattr_content]; rewrite Hc; reflexivity.
Qed.

(** ** The absent term *)

(** C8. Whatever the source and the position, the suspension of the term
    [None] is the one of [Return(None)]: it yields [(None, pos)] at once,
    and [parse_prefix] of it returns [(None, 0)].  [Literal(None)] is
    another term: on a source whose element is [None] it consumes that
    element, and elsewhere it fails, where the term [None] succeeds
    without consuming. *)
Theorem none_term_is_return_none E P pos depth fuel src :
  _parse E P TNone pos = Ok (Yield (Final (ParseResult VNone pos)) stop, P) /\
  _parse E P TNone pos = _parse E P (Return VNone) pos /\
  parse_prefix E depth (S fuel) TNone src = Ok (Some (ParseResult VNone 0)) /\
  parse_prefix E depth (S fuel) (Return VNone) src
    = Ok (Some (ParseResult VNone 0)) /\
  parse_prefix E depth (S fuel) (Literal VNone) (STokens [VNone])
    = Ok (Some (ParseResult VNone 1)) /\
  parse_prefix E depth (S fuel) TNone (STokens [VNone])
    = Ok (Some (ParseResult VNone 0)) /\
  parse_prefix E depth (S fuel) (Literal VNone) (STokens [VStr "x"])
    = Exc ParseError.
Proof.
  destruct depth, fuel; repeat split; reflexivity.
Qed.

(** ** How a run ends *)

Section Outcome.

Variable E : Env.
Variable depth : nat.

Lemma run_loop_done fuel P ans :
  stack P = [] -> run_loop E depth fuel P ans = Ok (ans, P).
Proof. intros H. destruct fuel; simpl; rewrite H; reflexivity. Qed.

(** The answer is Python's [None] only while a new suspension waits on
    the stack. *)
Lemma reachable_answer src term P ans :
  reachable E depth src term P ans -> ans = None -> stack P <> [].
Proof.
  intros Hr. assert (Hstart : forall Q t p s Q',
    _start E depth Q t p = Ok (s, Q') -> s = None -> stack Q' <> []).
  { intros Q t p s Q' H ->. apply _start_inv in H.
    destruct H as (t' & _ & [(a & _ & Hs & _) | (_ & _ & g & P2 & _ & ->)]);
      [discriminate | simpl; discriminate]. }
  destruct Hr as [P ans H | P ans P' ans' _ Ht].
  - eapply Hstart; eassumption.
  - inversion Ht as [? ? key top rest ? ? Hs Hb]; subst.
    unfold loop_body in Hb.
    destruct (send top ans) as [[t p | a] k | | e]; try discriminate.
    + eapply Hstart; eassumption.
    + inversion Hb; subst. discriminate.
Qed.

Lemma run_loop_reachable src term fuel :
  forall P ans ans' P',
    reachable E depth src term P ans ->
    run_loop E depth fuel P ans = Ok (ans', P') ->
    reachable E depth src term P' ans' /\ stack P' = [].
Proof.
  induction fuel as [|fuel IH]; intros P ans ans' P' Hr H; simpl in H.
  - destruct (stack P) as [|[key top] rest] eqn:Hs; [|discriminate].
    inversion H; subst. auto.
  - destruct (stack P) as [|[key top] rest] eqn:Hs.
    + inversion H; subst. auto.
    + destruct (loop_body E depth P ans key top rest) as [[a1 P1]| |] eqn:Hb;
        try discriminate.
      eapply IH; [|exact H]. eapply reach_turn; [exact Hr|].
      econstructor; eassumption.
Qed.

Lemma drive_reachable src term fuel ans P' :
  drive E depth fuel (Parser_init src) term = Ok (ans, P') ->
  reachable E depth src term P' ans /\ stack P' = [].
Proof.
  unfold drive. intros H.
  destruct (_start E depth (Parser_init src) term 0) as [[a1 P1]| |] eqn:Hs;
    try discriminate.
  eapply run_loop_reachable; [|exact H]. apply reach_start. assumption.
Qed.

Lemma drive_answers src term fuel ans P' :
  drive E depth fuel (Parser_init src) term = Ok (ans, P') ->
  exists a, ans = Some a.
Proof.
  intros H. apply drive_reachable in H. destruct H as [Hr Hs].
  destruct ans as [a|]; [eauto|].
  exfalso. eapply reachable_answer; eauto.
Qed.

(** C9. [parse_prefix] never returns a failure value: whatever it returns
    is a [ParseResult]; when the loop of the driver ends with
    [ParseFailure] it raises ParseError, when the loop ends with a result
    it returns that result, and any other exception or non-termination of
    the loop is its own.  [parse] goes through the same loop on
    [Left(term, End)], raises ParseError in the same case and returns the
    value of the result otherwise. *)
Theorem parse_prefix_never_returns_failure fuel term src :
  match parse_prefix E depth fuel term src with
  | Ok r => exists v p, r = Some (ParseResult v p)
  | Exc _ => True
  | OutOfFuel => True
  end /\
  match drive E depth fuel (Parser_init src) term with
  | Ok (ans, _) =>
      (ans = Some ParseFailure /\
       parse_prefix E depth fuel term src = Exc ParseError) \/
      (exists v p, ans = Some (ParseResult v p) /\
                   parse_prefix E depth fuel term src = Ok ans)
  | Exc e => parse_prefix E depth fuel term src = Exc e
  | OutOfFuel => parse_prefix E depth fuel term src = OutOfFuel
  end /\
  match drive E depth fuel (Parser_init src) (Left term End) with
  | Ok (ans, _) =>
      (ans = Some ParseFailure /\
       parse E depth fuel term src = Exc ParseError) \/
      (exists v p, ans = Some (ParseResult v p) /\
                   parse E depth fuel term src = Ok v)
  | Exc e => parse E depth fuel term src = Exc e
  | OutOfFuel => parse E depth fuel term src = OutOfFuel
  end.
Proof.
  assert (Hrun : forall t,
    match drive E depth fuel (Parser_init src) t with
    | Ok (ans, _) =>
        (ans = Some ParseFailure /\
         parse_prefix E depth fuel t src = Exc ParseError) \/
        (exists v p, ans = Some (ParseResult v p) /\
                     parse_prefix E depth fuel t src = Ok ans)
    | Exc e => parse_prefix E depth fuel t src = Exc e
    | OutOfFuel => parse_prefix E depth fuel t src = OutOfFuel
    end).
  { intros t. unfold parse_prefix, run.
    destruct (drive E depth fuel (Parser_init src) t) as [[ans P']| |] eqn:Hd;
      try reflexivity.
    destruct (drive_answers _ _ _ _ _ Hd) as [[|v p] ->].
    - left. auto.
    - right. eauto. }
  split; [|split].
  - specialize (Hrun term).
    destruct (drive E depth fuel (Parser_init src) term) as [[ans P']| |].
    + destruct Hrun as [[_ ->] | (v & p & -> & ->)]; eauto.
    + rewrite Hrun. exact I.
    + rewrite Hrun. exact I.
  - apply Hrun.
  - specialize (Hrun (Left term End)). unfold parse.
    destruct (drive E depth fuel (Parser_init src) (Left term End))
      as [[ans P']| |].
    + destruct Hrun as [[-> ->] | (v & p & -> & ->)]; [left | right]; eauto.
    + rewrite Hrun. reflexivity.
    + rewrite Hrun. reflexivity.
Qed.

End Outcome.

(** ** [parse] against [parse] of [Left(term, End)] *)

Lemma Left_not_itself (T b : Term) : T <> Left T b.
Proof.
  revert b. induction T; intros b0 H; try discriminate.
  injection H as H1 H2. eapply IHT1. exact H1.
Qed.

Section Whole.

Variable E : Env.
Variable depth : nat.

Lemma unwrap_Left a b : unwrap E depth (Left a b) = Some (Left a b).
Proof. destruct depth; reflexivity. Qed.

Lemma unwrap_End : unwrap E depth End = Some End.
Proof. destruct depth; reflexivity. Qed.

Lemma turn_source P ans P' ans' :
  turn E depth (P, ans) (P', ans') -> source P' = source P.
Proof.
  intros Ht. inversion Ht as [? ? key top rest ? ? Hs Hb]; subst.
  unfold loop_body in Hb.
  destruct (send top ans) as [[t p | a] k | | e]; try discriminate.
  - apply _start_inv in Hb.
    destruct Hb as (t' & _ & [(a & _ & _ & ->) | (_ & _ & g & P2 & Hp & ->)]).
    + reflexivity.
    + apply _parse_frame in Hp. destruct Hp as (Hsrc & _). exact Hsrc.
  - inversion Hb; subst. reflexivity.
Qed.

Lemma ends_turn P ans P' ans' :
  seeded P -> end_memo P -> end_frames E P ->
  turn E depth (P, ans) (P', ans') ->
  end_memo P' /\ end_frames E P'.
Proof.
  intros [Hnd Hm] Hem Hef Ht.
  inversion Ht as [? ? key top rest ? ? Hs Hb]; subst.
  unfold loop_body in Hb.
  destruct (send top ans) as [[t p | a] k | | e] eqn:Hsend; try discriminate.
  - assert (Hkey : forall q, key <> (End, q)).
    { intros q ->. specialize (Hef q top). rewrite Hs in Hef.
      specialize (Hef (or_introl eq_refl)). subst top.
      destruct ans; simpl in Hsend; [discriminate|].
      destruct (Nat.eqb q (source_len (source P))); discriminate. }
    apply _start_inv in Hb.
    destruct Hb as (t' & Hu & [(a & _ & _ & ->) | (Hnone & _ & g & P2 & Hp & ->)]).
    + split.
      * intros p0 a0 H. simpl in *.
        destruct (Hem p0 a0 H) as [|[? [|Hin]]]; auto.
        right. split; auto. right. rewrite Hs in Hin. exact Hin.
      * intros p0 g0 [Heq | Hin].
        -- inversion Heq; subst. exfalso. eapply Hkey. reflexivity.
        -- apply Hef. rewrite Hs. right. exact Hin.
    + pose proof (_parse_frame _ _ _ _ _ _ Hp) as (Hsrc & Hmemo & Hstack).
      simpl in Hsrc, Hmemo, Hstack, Hnone. split.
      * intros p0 a0. simpl. rewrite Hmemo, Hsrc, Hstack. simpl.
        destruct (key_eqb (End, p0) (t', p)) eqn:Hk.
        -- intros [= <-]. right. split; auto. right. left.
           apply key_eqb_eq in Hk. auto.
        -- intros H. destruct (Hem p0 a0 H) as [|[? [|Hin]]]; auto.
           right. split; auto. right. right. rewrite Hs in Hin. exact Hin.
      * intros p0 g0. simpl. rewrite Hstack, Hsrc. simpl.
        intros [Heq | [Heq | Hin]].
        -- inversion Heq; subst. simpl in Hp. inversion Hp; subst.
           reflexivity.
        -- inversion Heq; subst. exfalso. eapply Hkey. reflexivity.
        -- apply Hef. rewrite Hs. right. exact Hin.
  - inversion Hb; subst. split.
    + intros p0 a0. simpl.
      destruct (key_eqb (End, p0) key) eqn:Hk.
      * apply key_eqb_eq in Hk. subst key. intros [= <-].
        specialize (Hef p0 top). rewrite Hs in Hef.
        specialize (Hef (or_introl eq_refl)). subst top.
        destruct ans; simpl in Hsend; [discriminate|].
        destruct (Nat.eqb p0 (source_len (source P))) eqn:Heq;
          inversion Hsend; subst.
        -- left. split; auto. apply Nat.eqb_eq. assumption.
        -- right. split; auto. left. apply Nat.eqb_neq. assumption.
      * intros H. destruct (Hem p0 a0 H) as [|[? [|Hin]]]; auto.
        right. split; auto. right. rewrite Hs in Hin. simpl in Hin.
        destruct Hin as [Heq | Hin]; auto.
        subst key. rewrite key_eqb_refl in Hk. discriminate.
    + intros p0 g0 Hin. simpl in *. apply Hef. rewrite Hs. right. exact Hin.
Qed.

Lemma bottom_turn T t P ans P' ans' :
  unwrap E depth T = Some t ->
  seeded P -> end_memo P ->
  bottom E T t P ans ->
  turn E depth (P, ans) (P', ans') ->
  bottom E T t P' ans'.
Proof.
  intros Hu [Hnd Hseed] Hem Hb Ht.
  inversion Ht as [? ? key top rest ? ? Hs Hbody]; subst.
  unfold loop_body in Hbody.
  destruct Hb as [Hst Hans | above f Hst Hf | a Hst Hans Hmemo
                 | va pa Hst Hans Hmemo | va pa a Hst Hans Hval Hmemo
                 | a Hst _ _].
  - (* not started: the request for T *)
    rewrite Hst in Hs. inversion Hs; subst key top rest. subst ans.
    simpl in Hbody. apply _start_inv in Hbody.
    destruct Hbody as (t' & Hu' & [(a & Ha & -> & ->) | (_ & -> & g & P2 & Hp & ->)]);
      rewrite Hu in Hu'; inversion Hu'; subst t'.
    + eapply bottom_first_answered; [reflexivity | reflexivity | exact Ha].
    + apply _parse_frame in Hp. destruct Hp as (_ & _ & Hstack).
      eapply (bottom_first_pending _ _ _ _ _ [] ((t, 0), Fresh g));
        [|reflexivity].
      simpl. rewrite Hstack. reflexivity.
  - (* frames above are at work *)
    destruct above as [|x above'].
    + simpl in Hst. rewrite Hst in Hs. inversion Hs; subst f rest.
      simpl in Hf. subst key.
      destruct (send top ans) as [[t1 p1 | a] k | | e]; try discriminate.
      * apply _start_inv in Hbody.
        destruct Hbody as (t' & _ & [(a & _ & _ & ->) | (_ & _ & g & P2 & Hp & ->)]).
        -- eapply (bottom_first_pending _ _ _ _ _ [] ((t, 0), Suspended k));
             reflexivity.
        -- apply _parse_frame in Hp. destruct Hp as (_ & _ & Hstack).
           eapply (bottom_first_pending _ _ _ _ _ [((t', p1), Fresh g)]
                     ((t, 0), Suspended k)); [|reflexivity].
           simpl. rewrite Hstack. reflexivity.
      * inversion Hbody; subst.
        eapply bottom_first_answered; [reflexivity | reflexivity |].
        simpl. rewrite key_eqb_refl. reflexivity.
    + simpl in Hst. rewrite Hst in Hs. inversion Hs; subst x rest.
      destruct (send top ans) as [[t1 p1 | a] k | | e]; try discriminate.
      * apply _start_inv in Hbody.
        destruct Hbody as (t' & _ & [(a & _ & _ & ->) | (_ & _ & g & P2 & Hp & ->)]).
        -- eapply (bottom_first_pending _ _ _ _ _ ((key, Suspended k) :: above') f);
             [reflexivity | exact Hf].
        -- apply _parse_frame in Hp. destruct Hp as (_ & _ & Hstack).
           eapply (bottom_first_pending _ _ _ _ _
                     (((t', p1), Fresh g) :: (key, Suspended k) :: above') f);
             [|exact Hf].
           simpl. rewrite Hstack. reflexivity.
      * inversion Hbody; subst.
        eapply (bottom_first_pending _ _ _ _ _ above' f);
          [reflexivity | exact Hf].
  - (* answered for T *)
    rewrite Hst in Hs. inversion Hs; subst key top rest. subst ans.
    destruct a as [|va pa]; simpl in Hbody.
    + inversion Hbody; subst.
      eapply bottom_done; [reflexivity | reflexivity | left; reflexivity].
    + apply _start_inv in Hbody.
      destruct Hbody as (t' & Hu' & [(a & Ha & -> & ->) | (Hnone & -> & g & P2 & Hp & ->)]);
        rewrite unwrap_End in Hu'; inversion Hu'; subst t'.
      * simpl in Ha. eapply (bottom_end_answered _ _ _ _ _ va pa a);
          [reflexivity | reflexivity | | exact Hmemo].
        destruct (Hem pa a Ha) as [[-> Hlen] | [-> _]];
          [right; auto | left; reflexivity].
      * simpl in Hp. inversion Hp; subst. simpl in Hnone.
        eapply (bottom_end_pending _ _ _ _ _ va pa);
          [reflexivity | reflexivity |].
        simpl. destruct (key_eqb (t, 0) (End, pa)) eqn:Hk; [|exact Hmemo].
        apply key_eqb_eq in Hk. rewrite Hk in Hmemo. congruence.
  - (* End has been started *)
    rewrite Hst in Hs. inversion Hs; subst key top rest. subst ans.
    simpl in Hbody.
    assert (Hne : (t, 0) <> (End, pa)).
    { intros Heq. rewrite Heq in Hmemo.
      rewrite Hseed in Hmemo; [discriminate|].
      rewrite Hst. left. reflexivity. }
    destruct (Nat.eqb pa (source_len (source P))) eqn:Hlen;
      inversion Hbody; subst.
    + eapply (bottom_end_answered _ _ _ _ _ va pa);
        [reflexivity | reflexivity | |].
      * right. split; [reflexivity|]. apply Nat.eqb_eq. exact Hlen.
      * simpl. rewrite key_eqb_neq by exact Hne. exact Hmemo.
    + eapply (bottom_end_answered _ _ _ _ _ va pa);
        [reflexivity | reflexivity | left; reflexivity |].
      simpl. rewrite key_eqb_neq by exact Hne. exact Hmemo.
  - (* answered for End *)
    rewrite Hst in Hs. inversion Hs; subst key top rest. subst ans.
    destruct Hval as [-> | [-> Hlen]]; simpl in Hbody; inversion Hbody; subst.
    + eapply bottom_done; [reflexivity | reflexivity | left; reflexivity].
    + eapply bottom_done; [reflexivity | reflexivity |].
      right. exists va. split; [reflexivity|]. simpl.
      destruct (key_eqb (t, 0) (Left T End, 0)); [reflexivity | exact Hmemo].
  - rewrite Hst in Hs. discriminate.
Qed.

Lemma whole_turn T t P ans P' ans' :
  unwrap E depth T = Some t ->
  whole_inv E T t P ans ->
  turn E depth (P, ans) (P', ans') ->
  whole_inv E T t P' ans'.
Proof.
  intros Hu (Hseed & Hem & Hef & Hb) Ht.
  destruct (ends_turn _ _ _ _ Hseed Hem Hef Ht) as [Hem' Hef'].
  split; [eapply seeded_turn; eassumption|].
  split; [assumption|]. split; [assumption|].
  eapply bottom_turn; eassumption.
Qed.

Lemma whole_turns_n T t n :
  unwrap E depth T = Some t ->
  forall P ans P' ans',
    whole_inv E T t P ans ->
    turns_n E depth n (P, ans) (P', ans') ->
    whole_inv E T t P' ans'.
Proof.
  intros Hu. induction n as [|n IH]; intros P ans P' ans' Hw Ht;
    inversion Ht; subst; [assumption|].
  destruct S2 as [P2 a2]. eapply IH; [|eassumption].
  eapply whole_turn; eassumption.
Qed.

End Whole.

Section Simulation.

Variable E : Env.
Variable depth : nat.

Lemma run_loop_turn P ans P' ans' :
  turn E depth (P, ans) (P', ans') ->
  run_loop E depth 0 P ans = OutOfFuel /\
  forall f, run_loop E depth (S f) P ans = run_loop E depth f P' ans'.
Proof.
  intros Ht. inversion Ht as [? ? key top rest ? ? Hs Hb]; subst.
  split; [simpl; rewrite Hs; reflexivity|].
  intros f. simpl. rewrite Hs, Hb. reflexivity.
Qed.

Lemma run_loop_turns_n n :
  forall P ans P' ans',
    turns_n E depth n (P, ans) (P', ans') ->
    (forall f, f < n -> run_loop E depth f P ans = OutOfFuel) /\
    (forall f, run_loop E depth (n + f) P ans = run_loop E depth f P' ans').
Proof.
  induction n as [|n IH]; intros P ans P' ans' Ht;
    inversion Ht as [|? ? S2 ? Hturn Hrest]; subst.
  - split; [intros f Hf; lia | reflexivity].
  - destruct S2 as [P2 a2].
    destruct (run_loop_turn _ _ _ _ Hturn) as [H0 HS].
    destruct (IH _ _ _ _ Hrest) as [Hlt Hge].
    split.
    + intros [|f] Hf; [exact H0|]. rewrite HS. apply Hlt. lia.
    + intros f. change (S n + f) with (S (n + f)). rewrite HS. apply Hge.
Qed.

(** [_parse] reads the source and the two caches only. *)
Lemma _parse_explicit src m s f d t p :
  _parse E {| source := src; memo := m; stack := s;
              fieldmap := f; delegates := d |} t p =
  match _parse E {| source := src; memo := []; stack := [];
                    fieldmap := f; delegates := d |} t p with
  | Ok (g, Q) =>
      Ok (g, {| source := source Q; memo := m; stack := s;
                fieldmap := fieldmap Q; delegates := delegates Q |})
  | Exc e => Exc e
  | OutOfFuel => OutOfFuel
  end.
Proof.
  destruct t; try reflexivity.
  unfold _parse, _parse_struct. simpl.
  destruct (is_left_assoc E cls || is_right_assoc E cls).
  - unfold _parse_assoc_struct.
    destruct (cache_get cls f) as [fs|] eqn:Hf; simpl.
    + destruct (cache_get cls d); [reflexivity|]. rewrite Hf.
      destruct (make_delegate E cls fs); reflexivity.
    + destruct (cache_get cls d); [reflexivity|]. rewrite Nat.eqb_refl.
      destruct (make_delegate E cls (_struct_fields E cls)); reflexivity.
  - destruct (cache_get cls f) as [fs|] eqn:Hf; reflexivity.
Qed.

Lemma bottom_has_whole T t P ans :
  bottom E T t P ans -> stack P <> [] ->
  In (Left T End, 0) (keys (stack P)).
Proof.
  intros Hb Hne. unfold keys.
  destruct Hb as [Hst _ | above f Hst _ | a Hst _ _ | va pa Hst _ _
                 | va pa a Hst _ _ _ | a Hst _ _]; rewrite Hst in *;
    try (simpl; auto; fail).
  rewrite map_app, in_app_iff. right. simpl. auto.
Qed.

Lemma lockstep T src mA mB key top rest f d ans :
  let LLf := ((Left (Left T End) End, 0), Suspended (Left_after_a End)) in
  let A := {| source := src; memo := mA; stack := (key, top) :: rest;
              fieldmap := f; delegates := d |} in
  let B := {| source := src; memo := mB; stack := (key, top) :: rest ++ [LLf];
              fieldmap := f; delegates := d |} in
  seeded A -> In (Left T End, 0) (keys (stack A)) -> sim T A B ->
  match loop_body E depth B ans key top (rest ++ [LLf]) with
  | Ok (ans', B') =>
      exists n A', 1 <= n /\ turns_n E depth n (A, ans) (A', ans') /\
                   sim T A' B'
  | Exc e => loop_body E depth A ans key top rest = Exc e
  | OutOfFuel => loop_body E depth A ans key top rest = OutOfFuel
  end.
Proof.
  intros LLf A B [Hnd Hseed] HLk (_ & _ & _ & _ & HmB & HmA & Hagree & Hnot).
  simpl in Hnd, Hseed, HLk, HmB, HmA, Hagree, Hnot.
  assert (Hone : forall ans' A',
            loop_body E depth A ans key top rest = Ok (ans', A') ->
            turns_n E depth 1 (A, ans) (A', ans')).
  { intros ans' A' H. eapply turns_n_S; [|apply turns_n_0].
    eapply turn_body; [reflexivity | exact H]. }
  unfold loop_body in *.
  destruct (send top ans) as [[t1 p1 | a] k | | e] eqn:Hsend;
    [| | reflexivity | reflexivity].
  - unfold _start in *. simpl in *.
    destruct (unwrap E depth t1) as [t2|] eqn:Hu; [|reflexivity].
    destruct (Key_eq_dec (t2, p1) (Left (Left T End) End, 0)) as [Heq | Hne].
    + rewrite Heq in *. rewrite HmB.
      destruct HmA as [HA | HA].
      * injection Heq as -> ->.
        exists 3. eexists. split; [lia|]. split.
        -- eapply turns_n_S.
           { eapply turn_body; [reflexivity|].
             unfold loop_body. rewrite Hsend. unfold _start. rewrite Hu.
             simpl. rewrite HA. reflexivity. }
           eapply turns_n_S.
           { eapply turn_body; [reflexivity|].
             unfold loop_body. simpl. unfold _start. rewrite unwrap_Left.
             simpl.
             rewrite key_eqb_neq
               by (intros H; injection H as H; exact (Left_not_itself _ _ H)).
             rewrite (Hseed _ HLk). reflexivity. }
           eapply turns_n_S.
           { eapply turn_body; reflexivity. }
           apply turns_n_0.
        -- repeat split; simpl; auto.
           ++ rewrite key_eqb_refl. auto.
           ++ intros k0 Hk0. rewrite !key_eqb_neq by exact Hk0. auto.
      * exists 1. eexists. split; [lia|]. split.
        -- apply Hone. rewrite HA. reflexivity.
        -- repeat split; simpl; auto.
    + rewrite (Hagree _ Hne).
      destruct (memo_get (t2, p1) mA) as [a|] eqn:Hm.
      * exists 1. eexists. split; [lia|]. split.
        -- apply Hone. reflexivity.
        -- repeat split; simpl; auto.
      * unfold with_memo, with_stack in *. simpl in *.
        rewrite (_parse_explicit src (memo_set (t2, p1) ParseFailure mB)).
        rewrite (_parse_explicit src (memo_set (t2, p1) ParseFailure mA)) in *.
        destruct (_parse E {| source := src; memo := []; stack := [];
                              fieldmap := f; delegates := d |} t2 p1)
          as [[g Q]| |] eqn:Hp; [|reflexivity|reflexivity].
        exists 1. eexists. split; [lia|]. split.
        -- apply Hone. reflexivity.
        -- assert (Hk : key_eqb (Left (Left T End) End, 0) (t2, p1) = false)
             by (apply key_eqb_neq; congruence).
           repeat split; simpl; auto.
           ++ rewrite Hk. exact HmB.
           ++ rewrite Hk. exact HmA.
           ++ intros k0 Hk0. destruct (key_eqb k0 (t2, p1)); auto.
           ++ intros [H | H]; [congruence | auto].
  - exists 1. eexists. split; [lia|]. split.
    + apply Hone. reflexivity.
    + assert (Hk : key_eqb (Left (Left T End) End, 0) key = false)
        by (apply key_eqb_neq; intros H; apply Hnot; left; auto).
      repeat split; simpl; auto.
      * rewrite Hk. exact HmB.
      * rewrite Hk. exact HmA.
      * intros k0 Hk0. destruct (key_eqb k0 key); auto.
Qed.

Lemma lockstep_any T A B ans key top rest :
  seeded A -> In (Left T End, 0) (keys (stack A)) -> sim T A B ->
  stack A = (key, top) :: rest ->
  let LLf := ((Left (Left T End) End, 0), Suspended (Left_after_a End)) in
  stack B = (key, top) :: rest ++ [LLf] /\
  match loop_body E depth B ans key top (rest ++ [LLf]) with
  | Ok (ans', B') =>
      exists n A', 1 <= n /\ turns_n E depth n (A, ans) (A', ans') /\
                   sim T A' B'
  | Exc e => loop_body E depth A ans key top rest = Exc e
  | OutOfFuel => loop_body E depth A ans key top rest = OutOfFuel
  end.
Proof.
  destruct A as [sA mA stA fA dA], B as [sB mB stB fB dB].
  intros Hseed HLk Hsim Hst. pose proof Hsim as (H1 & H2 & H3 & H4 & _).
  simpl in *. subst. split; [reflexivity|].
  apply (lockstep T sA mA mB key top rest fA dA ans); assumption.
Qed.

Lemma final_phase T t A B ans :
  whole_inv E T t A ans -> sim T A B -> stack A = [] ->
  exists n B', turns_n E depth n (B, ans) (B', ans) /\ stack B' = [].
Proof.
  intros (_ & Hem & _ & Hb) Hsim Hst.
  destruct Hb as [Hs _ | above f Hs _ | a Hs _ _ | va pa Hs _ _
                 | va pa a Hs _ _ _ | a _ Hans Ha];
    try (rewrite Hs in Hst; discriminate);
    try (rewrite Hs in Hst; destruct above; discriminate).
  destruct A as [sA mA stA fA dA], B as [sB mB stB fB dB].
  destruct Hsim as (H1 & H2 & H3 & H4 & HmB & _ & Hagree & _).
  simpl in *. subst.
  destruct Ha as [-> | (va & -> & Hmemo)].
  - exists 1. eexists. split.
    + eapply turns_n_S; [|apply turns_n_0].
      eapply turn_body; reflexivity.
    + reflexivity.
  - assert (Hne : (End, source_len sA) <> (Left (Left T End) End, 0))
      by discriminate.
    destruct (memo_get (End, source_len sA) mA) as [a'|] eqn:Hend.
    + destruct (Hem _ _ Hend) as [[-> _] | (_ & [Hx | []])];
        [|simpl in Hx; congruence].
      exists 2. eexists. split.
      * eapply turns_n_S.
        { eapply turn_body; [reflexivity|].
          unfold loop_body. simpl. unfold _start. rewrite unwrap_End. simpl.
          rewrite (Hagree _ Hne), Hend. reflexivity. }
        eapply turns_n_S; [|apply turns_n_0].
        eapply turn_body; reflexivity.
      * reflexivity.
    + exists 3. eexists. split.
      * eapply turns_n_S.
        { eapply turn_body; [reflexivity|].
          unfold loop_body. simpl. unfold _start. rewrite unwrap_End. simpl.
          rewrite (Hagree _ Hne), Hend. reflexivity. }
        eapply turns_n_S.
        { eapply turn_body; [reflexivity|].
          unfold loop_body. simpl. rewrite Nat.eqb_refl. reflexivity. }
        eapply turns_n_S; [|apply turns_n_0].
        eapply turn_body; reflexivity.
      * reflexivity.
Qed.

Lemma whole_has_key T t A ans key top rest :
  whole_inv E T t A ans -> stack A = (key, top) :: rest ->
  seeded A /\ In (Left T End, 0) (keys (stack A)).
Proof.
  intros (Hseed & _ & _ & Hb) Hst. split; [assumption|].
  eapply bottom_has_whole; [eassumption | congruence].
Qed.

Lemma sim_forward T t :
  unwrap E depth T = Some t ->
  forall m A B ans,
    whole_inv E T t A ans -> sim T A B ->
    answer_of (run_loop E depth m B ans) <> OutOfFuel ->
    exists f, answer_of (run_loop E depth f A ans)
              = answer_of (run_loop E depth m B ans).
Proof.
  intros Hu. induction m as [|m IH]; intros A B ans Hw Hsim Hr;
    destruct (stack A) as [|[key top] rest] eqn:Hst.
  - destruct (final_phase _ _ _ _ _ Hw Hsim Hst) as (n & B' & Ht & Hs').
    destruct (run_loop_turns_n _ _ _ _ _ Ht) as [Hlt Hge].
    destruct n as [|n].
    + inversion Ht; subst. exists 0.
      rewrite !run_loop_done by assumption. reflexivity.
    + exfalso. apply Hr. rewrite Hlt by lia. reflexivity.
  - exfalso. apply Hr.
    destruct (whole_has_key _ _ _ _ _ _ _ Hw Hst) as [Hseed HLk].
    destruct (lockstep_any T A B ans key top rest Hseed HLk Hsim Hst) as [HsB _].
    simpl. rewrite HsB. reflexivity.
  - destruct (final_phase _ _ _ _ _ Hw Hsim Hst) as (n & B' & Ht & Hs').
    destruct (run_loop_turns_n _ _ _ _ _ Ht) as [Hlt Hge].
    destruct (Nat.lt_ge_cases (S m) n) as [Hlt' | Hge'].
    + exfalso. apply Hr. rewrite Hlt by assumption. reflexivity.
    + exists 0. replace (S m) with (n + (S m - n)) by lia.
      rewrite Hge. rewrite !run_loop_done by assumption. reflexivity.
  - destruct (whole_has_key _ _ _ _ _ _ _ Hw Hst) as [Hseed HLk].
    destruct (lockstep_any T A B ans key top rest Hseed HLk Hsim Hst)
      as [HsB Hstep].
    simpl in Hr |- *. rewrite HsB in Hr |- *.
    destruct (loop_body E depth B ans key top
                (rest ++ [((Left (Left T End) End, 0), Suspended (Left_after_a End))]))
      as [[ans' B']| |] eqn:Hb.
    + destruct Hstep as (n & A' & Hn & Ht & Hsim').
      pose proof (whole_turns_n E depth T t n Hu _ _ _ _ Hw Ht) as Hw'.
      destruct (IH A' B' ans' Hw' Hsim' Hr) as [f Hf].
      destruct (run_loop_turns_n _ _ _ _ _ Ht) as [_ Hge].
      exists (n + f). rewrite Hge. exact Hf.
    + exists 1. simpl. rewrite Hst, Hstep. reflexivity.
    + exfalso. apply Hr. reflexivity.
Qed.

Lemma sim_backward T t :
  unwrap E depth T = Some t ->
  forall f A B ans,
    whole_inv E T t A ans -> sim T A B ->
    answer_of (run_loop E depth f A ans) <> OutOfFuel ->
    exists m, answer_of (run_loop E depth m B ans)
              = answer_of (run_loop E depth f A ans).
Proof.
  intros Hu f. induction f as [f IH] using lt_wf_ind.
  intros A B ans Hw Hsim Hr.
  destruct (stack A) as [|[key top] rest] eqn:Hst.
  - destruct (final_phase _ _ _ _ _ Hw Hsim Hst) as (n & B' & Ht & Hs').
    destruct (run_loop_turns_n _ _ _ _ _ Ht) as [_ Hge].
    exists (n + 0). rewrite Hge. rewrite !run_loop_done by assumption.
    reflexivity.
  - destruct (whole_has_key _ _ _ _ _ _ _ Hw Hst) as [Hseed HLk].
    destruct (lockstep_any T A B ans key top rest Hseed HLk Hsim Hst)
      as [HsB Hstep].
    destruct (loop_body E depth B ans key top
                (rest ++ [((Left (Left T End) End, 0), Suspended (Left_after_a End))]))
      as [[ans' B']| |] eqn:Hb.
    + destruct Hstep as (n & A' & Hn & Ht & Hsim').
      pose proof (whole_turns_n E depth T t n Hu _ _ _ _ Hw Ht) as Hw'.
      destruct (run_loop_turns_n _ _ _ _ _ Ht) as [Hlt Hge].
      destruct (Nat.lt_ge_cases f n) as [Hlt' | Hge'].
      * exfalso. apply Hr. rewrite Hlt by assumption. reflexivity.
      * replace f with (n + (f - n)) in Hr |- * by lia.
        rewrite Hge in Hr |- *.
        destruct (IH (f - n) ltac:(lia) A' B' ans' Hw' Hsim' Hr) as [m Hm].
        exists (S m). simpl. rewrite HsB, Hb. exact Hm.
    + exists 1. simpl. rewrite HsB, Hb.
      destruct f as [|f]; simpl in Hr |- *; rewrite Hst in Hr |- *.
      * exfalso. apply Hr. reflexivity.
      * rewrite Hstep. reflexivity.
    + exfalso. apply Hr.
      destruct f as [|f]; simpl; rewrite Hst; [reflexivity|].
      rewrite Hstep. reflexivity.
Qed.

Lemma drive_whole T src fuel :
  drive E depth fuel (Parser_init src) (Left T End)
  = run_loop E depth fuel (whole_start E T src) None.
Proof. unfold drive, _start. rewrite unwrap_Left. reflexivity. Qed.

Lemma drive_twice T src fuel :
  drive E depth (S fuel) (Parser_init src) (Left (Left T End) End)
  = run_loop E depth fuel (twice_start E T src) None.
Proof.
  unfold drive, _start. rewrite unwrap_Left. simpl.
  unfold loop_body. simpl. unfold _start. rewrite unwrap_Left. simpl.
  rewrite key_eqb_neq
    by (intros H; injection H as H; exact (Left_not_itself _ _ H)).
  reflexivity.
Qed.

Lemma drive_twice_0 T src :
  drive E depth 0 (Parser_init src) (Left (Left T End) End) = OutOfFuel.
Proof. unfold drive, _start. rewrite unwrap_Left. reflexivity. Qed.

Lemma whole_start_inv T t src : whole_inv E T t (whole_start E T src) None.
Proof.
  split; [|split; [|split]].
  - split; simpl.
    + constructor; [intros [] | constructor].
    + intros k [<- | []]. rewrite key_eqb_refl. reflexivity.
  - intros p a H. exfalso. unfold whole_start in H. cbn [memo memo_get] in H.
    rewrite key_eqb_neq in H by discriminate. discriminate.
  - intros p g [H | []]. discriminate.
  - apply bottom_new; reflexivity.
Qed.

Lemma whole_twice_sim T src : sim T (whole_start E T src) (twice_start E T src).
Proof.
  assert (Hne : (Left T End, 0) <> (Left (Left T End) End, 0))
    by (intros H; injection H as H; exact (Left_not_itself _ _ H)).
  repeat split; simpl; auto.
  - rewrite key_eqb_neq by congruence. rewrite key_eqb_refl. reflexivity.
  - left. rewrite key_eqb_neq by congruence. reflexivity.
  - intros k Hk. destruct (key_eqb k (Left T End, 0)); [reflexivity|].
    rewrite key_eqb_neq by exact Hk. reflexivity.
  - intros [H | []]. congruence.
Qed.

Lemma parse_finish T src fuel :
  parse E depth fuel T src
  = finish (answer_of (drive E depth fuel (Parser_init src) (Left T End))).
Proof.
  unfold parse, parse_prefix, run.
  destruct (drive E depth fuel (Parser_init src) (Left T End))
    as [[[[|v p]|] P']| |]; reflexivity.
Qed.

Lemma finish_not_timeout r : finish r <> OutOfFuel -> r <> OutOfFuel.
Proof. intros H ->. apply H. reflexivity. Qed.

(** Without a term to resolve to, neither parse gets anywhere. *)
Lemma whole_unresolved T src fuel :
  unwrap E depth T = None ->
  run_loop E depth fuel (whole_start E T src) None = OutOfFuel /\
  run_loop E depth fuel (twice_start E T src) None = OutOfFuel.
Proof.
  intros Hu. destruct fuel as [|fuel]; [split; reflexivity|].
  split; simpl; unfold loop_body; simpl; unfold _start; rewrite Hu;
    reflexivity.
Qed.

Lemma whole_run_loop T t fuel :
  unwrap E depth T = Some t ->
  forall P ans ans' P',
    whole_inv E T t P ans ->
    run_loop E depth fuel P ans = Ok (ans', P') ->
    whole_inv E T t P' ans' /\ stack P' = [] /\ source P' = source P.
Proof.
  intros Hu. induction fuel as [|fuel IH]; intros P ans ans' P' Hw H;
    simpl in H; destruct (stack P) as [|[key top] rest] eqn:Hs;
    try discriminate.
  - inversion H; subst. auto.
  - inversion H; subst. auto.
  - destruct (loop_body E depth P ans key top rest) as [[a1 P1]| |] eqn:Hb;
      try discriminate.
    assert (Ht : turn E depth (P, ans) (P1, a1))
      by (econstructor; eassumption).
    destruct (IH P1 a1 ans' P' (whole_turn _ _ _ _ _ _ _ _ Hu Hw Ht) H)
      as (Hw' & Hs' & Hsrc).
    split; [assumption|]. split; [assumption|].
    rewrite Hsrc. eapply turn_source. eassumption.
Qed.

(** C2. [parse(T, s)] is the value component of
    [parse_prefix(Left(T, End), s)]; [parse(Left(T, End), s)] and
    [parse(T, s)] end the same way, with the same value or the same
    exception, each given enough fuel; and when [parse] returns, the answer
    of the driver and the memo entry of [T] at 0 both end at the length of
    the source; when the loop ends and [T] at 0 has succeeded short of the
    end of the source, [parse] raises ParseError. *)
Theorem parse_is_left_end T src :
  (forall fuel,
     parse E depth fuel T src =
     match parse_prefix E depth fuel (Left T End) src with
     | Ok ans => ans_value ans
     | Exc e => Exc e
     | OutOfFuel => OutOfFuel
     end) /\
  (forall r, r <> OutOfFuel ->
     ((exists fuel, parse E depth fuel (Left T End) src = r) <->
      (exists fuel, parse E depth fuel T src = r))) /\
  (forall fuel v,
     parse E depth fuel T src = Ok v ->
     exists t P',
       unwrap E depth T = Some t /\
       drive E depth fuel (Parser_init src) (Left T End)
         = Ok (Some (ParseResult v (source_len src)), P') /\
       memo_get (t, 0) (memo P') = Some (ParseResult v (source_len src))) /\
  (forall fuel ans P' t v p,
     drive E depth fuel (Parser_init src) (Left T End) = Ok (ans, P') ->
     unwrap E depth T = Some t ->
     memo_get (t, 0) (memo P') = Some (ParseResult v p) ->
     p <> source_len src ->
     parse E depth fuel T src = Exc ParseError) /\
  (forall fuel,
     parse_prefix E depth (1 + fuel) (TStr "a") (SText "ab")
       = Ok (Some (ParseResult (VStr "a") 1)) /\
     parse E depth (5 + fuel) (TStr "a") (SText "ab") = Exc ParseError).
Proof.
  split; [reflexivity|]. split; [|split; [|split]].
  - intros r Hr. destruct (unwrap E depth T) as [t|] eqn:Hu.
    + split; intros [fuel H]; rewrite parse_finish in H; subst r;
        apply finish_not_timeout in Hr.
      * destruct fuel as [|fuel]; [rewrite drive_twice_0 in Hr; exfalso; apply Hr; reflexivity|].
        rewrite drive_twice in Hr |- *.
        destruct (sim_forward T t Hu fuel _ _ None
                    (whole_start_inv T t src) (whole_twice_sim T src) Hr)
          as [f Hf].
        exists f. rewrite parse_finish, drive_whole, Hf. reflexivity.
      * rewrite drive_whole in Hr |- *.
        destruct (sim_backward T t Hu fuel _ _ None
                    (whole_start_inv T t src) (whole_twice_sim T src) Hr)
          as [m Hm].
        exists (S m). rewrite parse_finish, drive_twice, Hm. reflexivity.
    + split; intros [fuel H]; exfalso; apply Hr; rewrite <- H, parse_finish.
      * destruct fuel as [|fuel]; [rewrite drive_twice_0; reflexivity|].
        rewrite drive_twice.
        rewrite (proj2 (whole_unresolved T src fuel Hu)). reflexivity.
      * rewrite drive_whole.
        rewrite (proj1 (whole_unresolved T src fuel Hu)). reflexivity.
  - intros fuel v H. rewrite parse_finish, drive_whole in H.
    destruct (unwrap E depth T) as [t|] eqn:Hu.
    2:{ rewrite (proj1 (whole_unresolved T src fuel Hu)) in H. discriminate. }
    destruct (run_loop E depth fuel (whole_start E T src) None)
      as [[ans' P']| |] eqn:Hrun; try discriminate.
    destruct (whole_run_loop T t fuel Hu _ _ _ _ (whole_start_inv T t src) Hrun)
      as ((_ & _ & _ & Hb) & Hs & Hsrc).
    simpl in Hsrc.
    destruct Hb as [Hst _ | above f Hst _ | a Hst _ _ | va pa Hst _ _
                   | va pa a Hst _ _ _ | a _ Hans Ha];
      try (rewrite Hst in Hs; discriminate);
      try (rewrite Hst in Hs; destruct above; discriminate).
    subst ans'. destruct Ha as [-> | (va & -> & Hmemo)]; [discriminate|].
    simpl in H. injection H as ->. rewrite Hsrc in Hmemo.
    exists t, P'. split; [reflexivity|]. rewrite drive_whole, Hrun, Hsrc.
    split; [reflexivity | exact Hmemo].
  - intros fuel ans P' t v p Hd Hu Hmemo Hp.
    rewrite parse_finish, Hd. rewrite drive_whole in Hd.
    destruct (whole_run_loop T t fuel Hu _ _ _ _ (whole_start_inv T t src) Hd)
      as ((_ & _ & _ & Hb) & Hs & Hsrc).
    simpl in Hsrc.
    destruct Hb as [Hst _ | above f Hst _ | a Hst _ _ | va pa Hst _ _
                   | va pa a Hst _ _ _ | a _ Hans Ha];
      try (rewrite Hst in Hs; discriminate);
      try (rewrite Hst in Hs; destruct above; discriminate).
    subst ans. destruct Ha as [-> | (va & -> & Hm)]; [reflexivity|].
    rewrite Hsrc in Hm. congruence.
  - intros fuel. destruct depth, fuel; split; reflexivity.
Qed.

End Simulation.

(** ** The theorems at work on small grammars *)

Ltac reach n :=
  lazymatch n with
  | O => eapply reach_start; reflexivity
  | S ?m => eapply reach_turn; [reach m | eapply turn_body; reflexivity]
  end.

Lemma start_memo_seed_witness :
  exists P ans,
    reachable maybe_env 1 (SText "") maybe_twice P ans /\
    unwrap maybe_env 1 (ForwardRef 0) = Some (Opt (ForwardRef 0)) /\
    In (Opt (ForwardRef 0), 0) (keys (stack P)) /\
    _start maybe_env 1 P (ForwardRef 0) 0 = Ok (Some ParseFailure, P).
Proof.
  do 2 eexists. split; [reach 1|]. split; [reflexivity|].
  split; [left; reflexivity|].
  refine (proj2 (proj2 (start_memo_seed maybe_env 1 (SText "") maybe_twice
                          _ _ (ForwardRef 0) 0 (Opt (ForwardRef 0)) _ _)) _).
  - reach 1.
  - reflexivity.
  - left. reflexivity.
Defined.

Lemma parse_is_left_end_witness :
  parse empty_env 0 5 (TStr "a") (SText "a") = Ok (VStr "a") /\
  exists t P',
    unwrap empty_env 0 (TStr "a") = Some t /\
    drive empty_env 0 5 (Parser_init (SText "a")) (Left (TStr "a") End)
      = Ok (Some (ParseResult (VStr "a") 1), P') /\
    memo_get (t, 0) (memo P') = Some (ParseResult (VStr "a") 1).
Proof.
  split; [reflexivity|].
  apply (proj1 (proj2 (proj2
           (parse_is_left_end empty_env 0 (TStr "a") (SText "a")))) 5 (VStr "a")).
  reflexivity.
Defined.

Lemma memo_settled_entries_are_final_witness :
  exists P ans P' ans',
    reachable maybe_env 1 (SText "") maybe_twice P ans /\
    turns maybe_env 1 (P, ans) (P', ans') /\
    memo_get (Opt (ForwardRef 0), 0) (memo P) = Some (ParseResult VNone 0) /\
    ~ In (Opt (ForwardRef 0), 0) (keys (stack P)) /\
    memo_get (Opt (ForwardRef 0), 0) (memo P') = Some (ParseResult VNone 0).
Proof.
  do 4 eexists. split; [reach 3|].
  split; [eapply turns_step; [apply turns_refl | eapply turn_body; reflexivity]|].
  split; [reflexivity|].
  lazymatch goal with
  | |- ~ In _ (keys (stack ?P)) /\ memo_get _ (memo ?P') = _ =>
      assert (Hout : ~ In (Opt (ForwardRef 0), 0) (keys (stack P)))
        by (intros [H | []]; discriminate);
      split; [exact Hout|];
      refine (proj1 (proj1 (proj2 (memo_settled_entries_are_final maybe_env 1
                (SText "") maybe_twice P _ P' _ (Opt (ForwardRef 0), 0)
                (ParseResult VNone 0) _ _ _)) Hout))
  end.
  - reach 3.
  - eapply turns_step; [apply turns_refl | eapply turn_body; reflexivity].
  - reflexivity.
Defined.

Lemma positions_forward_without_backtrack_witness :
  backtrack_free empty_env (fun t => t = TStr "a") /\
  exists P ans,
    reachable empty_env 0 (SText "a") (TStr "a") P ans /\
    memo_get (TStr "a", 0) (memo P) = Some (ParseResult (VStr "a") 1) /\
    0 <= 1.
Proof.
  assert (Hbf : backtrack_free empty_env (fun t => t = TStr "a"))
    by (intros t ->; exact I).
  split; [exact Hbf|].
  do 2 eexists. split; [reach 1|]. split; [reflexivity|].
  refine (positions_forward_without_backtrack empty_env 0
            (fun t => t = TStr "a") Hbf (SText "a") (TStr "a") _ _
            (TStr "a") 0 (VStr "a") 1 eq_refl _ _).
  - reach 1.
  - reflexivity.
Defined.

Lemma caches_ok_init E src : caches_ok E (Parser_init src).
Proof. split; intros cls x H; discriminate. Defined.

Lemma simple_struct_fields_in_order_witness :
  is_left_assoc struct_env 0 = false /\
  is_right_assoc struct_env 0 = false /\
  caches_ok struct_env (Parser_init (SText "ab")) /\
  exists g P',
    _parse struct_env (Parser_init (SText "ab")) (TStruct 0) 0 = Ok (g, P') /\
    converse g (successes [(VStr "a", 1); (VStr "b", 2)]) =
      ([(TStr "a", 0); (TStr "b", 1)],
       Some (ParseResult
               (VInstance 0 [("left", VStr "a"); ("right", VStr "b")]) 2)) /\
    converse g (successes [(VStr "a", 1)] ++ [ParseFailure]) =
      ([(TStr "a", 0); (TStr "b", 1)], Some ParseFailure).
Proof.
  split; [reflexivity|]. split; [reflexivity|].
  split; [apply caches_ok_init|].
  destruct (simple_struct_fields_in_order struct_env
              (Parser_init (SText "ab")) 0 0 [(VStr "a", 1); (VStr "b", 2)]
              eq_refl eq_refl (caches_ok_init _ _))
    as (g & P' & Hp & Hall & _).
  exists g, P'. split; [exact Hp|].
  split; [exact (Hall eq_refl)|].
  simpl in Hp. injection Hp as <- _. reflexivity.
Defined.

Lemma assoc_struct_parses_delegate_witness :
  caches_ok struct_env (Parser_init (SText "x.y")) /\
  class_assignments struct_env 1
    = ("left", TRegex 0) :: [("op", TStr ".")] ++ [("right", TRegex 0)] /\
  is_left_assoc struct_env 1 || is_right_assoc struct_env 1 = true /\
  exists d g P',
    d = ReduceLeft (TRegex 0) (TTuple [TStr "."]) (TRegex 0)
                   (BuildStruct 1 ["left"; "op"; "right"]) /\
    _parse struct_env (Parser_init (SText "x.y")) (TStruct 1) 0 = Ok (g, P') /\
    _parse struct_env P' d 0 = Ok (g, P') /\
    cache_get 1 (delegates P') = Some d.
Proof.
  split; [apply caches_ok_init|]. split; [reflexivity|]. split; [reflexivity|].
  destruct (assoc_struct_parses_delegate struct_env
              (Parser_init (SText "x.y")) 1 0
              ("left", TRegex 0) [("op", TStr ".")] ("right", TRegex 0)
              (caches_ok_init _ _) eq_refl eq_refl)
    as (d & names & g & P' & -> & Hl & _ & Hp & Hd & _ & Hc & _).
  exists d, g, P'. split; [exact (Hl eq_refl)|].
  split; [exact Hp|]. split; [exact Hd | exact Hc].
Defined.

Lemma token_literal_matches_content_witness :
  source (Parser_init (STokens [VToken 0 (VStr "a")]))
    = STokens [VToken 0 (VStr "a")] /\
  exists g,
    _parse empty_env (Parser_init (STokens [VToken 0 (VStr "a")])) (TStr "a") 0
      = Ok (g, Parser_init (STokens [VToken 0 (VStr "a")])) /\
    exists val p' k, g = Yield (Final (ParseResult val p')) k.
Proof.
  split; [reflexivity|].
  destruct (token_literal_matches_content empty_env
              (Parser_init (STokens [VToken 0 (VStr "a")])) "a" 0
              [VToken 0 (VStr "a")] eq_refl)
    as (g & Hp & Hiff & _).
  exists g. split; [exact Hp|]. apply Hiff.
  split; [simpl; lia|]. exists (VToken 0 (VStr "a")). split; reflexivity.
Defined.

Lemma token_without_content_raises_witness :
  source (Parser_init (STokens [VStr "a"])) = STokens [VStr "a"] /\
  nth_error [VStr "a"] 0 = Some (VStr "a") /\
  getattr_content (VStr "a") = None /\
  parse_prefix empty_env 0 1 (TStr "a") (STokens [VStr "a"])
    = Exc AttributeError /\
  parse empty_env 0 2 (TStr "a") (STokens [VStr "a"]) = Exc AttributeError.
Proof.
  split; [reflexivity|]. split; [reflexivity|]. split; [reflexivity|].
  exact (proj2 (proj2 (token_without_content_raises empty_env 0 0
           (Parser_init (STokens [VStr "a"])) "a" 0 [VStr "a"] (VStr "a")
           (TNone, 0) [] eq_refl eq_refl eq_refl)) eq_refl).
Defined.

(** * Further properties of the parser *)

(** ** Tuples *)

Lemma tuple_loop_succeeds items :
  forall acc pos results,
    List.length results = List.length items ->
    converse (tuple_loop items acc pos) (successes results) =
      (combine items (pos :: map snd results),
       Some (ParseResult (VTuple (acc ++ map fst results))
                         (last (map snd results) pos))).
Proof.
  induction items as [|item rest IH]; intros acc pos [|[v p] results] Hlen;
    try discriminate.
  - simpl. rewrite app_nil_r. reflexivity.
  - simpl in Hlen. injection Hlen as Hlen.
    cbn [tuple_loop successes map converse fst snd].
    change (map (fun r => ParseResult (fst r) (snd r)) results)
      with (successes results).
    rewrite (IH (acc ++ [v]) p results Hlen).
    rewrite last_cons_default, <- app_assoc. reflexivity.
Qed.

Lemma tuple_loop_fails items :
  forall acc pos results more,
    List.length results < List.length items ->
    converse (tuple_loop items acc pos)
             (successes results ++ ParseFailure :: more) =
      (combine items (pos :: map snd results), Some ParseFailure).
Proof.
  induction items as [|item rest IH]; intros acc pos results more Hlen;
    simpl in Hlen; [lia|].
  destruct results as [|[v p] results].
  - cbn. destruct rest; reflexivity.
  - simpl in Hlen.
    cbn [tuple_loop successes map converse fst snd app].
    change (map (fun r => ParseResult (fst r) (snd r)) results)
      with (successes results).
    rewrite (IH (acc ++ [v]) p results more) by lia.
    reflexivity.
Qed.

(** X1. The suspension [_parse] gives for a tuple term requests the items
    in order, the first at the incoming position and each next one where
    the previous answer ended; when every item succeeds it ends with the
    tuple of the values, in order, at the position after the last item (for
    the empty tuple: the empty tuple at the incoming position, without a
    request); when an item fails it ends with [ParseFailure] and the later
    items are not requested. *)
Theorem tuple_items_in_order E P items pos results :
  exists g,
    _parse E P (TTuple items) pos = Ok (g, P) /\
    (List.length results = List.length items ->
       converse g (successes results) =
         (combine items (pos :: map snd results),
          Some (ParseResult (VTuple (map fst results))
                            (last (map snd results) pos)))) /\
    (List.length results < List.length items ->
       forall more,
         converse g (successes results ++ ParseFailure :: more) =
           (combine items (pos :: map snd results), Some ParseFailure) /\
         List.length (combine items (pos :: map snd results))
           = S (List.length results)) /\
    (items = [] ->
       forall answers,
         converse g answers = ([], Some (ParseResult (VTuple []) pos))).
Proof.
  exists (tuple_loop items [] pos). split; [reflexivity|]. split; [|split].
  - intros Hlen. apply (tuple_loop_succeeds items [] pos results Hlen).
  - intros Hlen more. split; [apply tuple_loop_fails; assumption|].
    rewrite length_combine. simpl. rewrite length_map. lia.
  - intros -> answers. reflexivity.
Qed.

Lemma tuple_items_in_order_witness :
  List.length [(VStr "a", 1); (VNone, 1)] = List.length [TStr "a"; TNone] /\
  exists g,
    _parse empty_env (Parser_init (SText "ab")) (TTuple [TStr "a"; TNone]) 0
      = Ok (g, Parser_init (SText "ab")) /\
    converse g (successes [(VStr "a", 1); (VNone, 1)]) =
      ([(TStr "a", 0); (TNone, 1)],
       Some (ParseResult (VTuple [VStr "a"; VNone]) 1)).
Proof.
  split; [reflexivity|].
  destruct (tuple_items_in_order empty_env (Parser_init (SText "ab"))
              [TStr "a"; TNone] 0 [(VStr "a", 1); (VNone, 1)])
    as (g & Hp & Hall & _).
  exists g. split; [exact Hp | exact (Hall eq_refl)].
Defined.

(** ** Attributes of a parsed struct *)






(** ** Assoc structs with fewer than two fields *)

(** X3. For a LeftAssoc or RightAssoc struct class whose constructor
    assigns no field, [_parse] raises IndexError, and so do [parse_prefix]
    and [parse] of the class, whatever the source; for a class with a
    single field, the delegate takes that field's term as both its first
    and its last term, with no middle terms. *)
Theorem assoc_struct_few_fields E P cls pos :
  caches_ok E P ->
  is_left_assoc E cls || is_right_assoc E cls = true ->
  (class_assignments E cls = [] ->
     _parse E P (TStruct cls) pos = Exc IndexError /\
     forall depth fuel src,
       parse_prefix E depth fuel (TStruct cls) src = Exc IndexError /\
       parse E depth (S fuel) (TStruct cls) src = Exc IndexError) /\
  (forall f, class_assignments E cls = [f] ->
     exists g P' d,
       _parse E P (TStruct cls) pos = Ok (g, P') /\
       cache_get cls (delegates P') = Some d /\
       g = lib_parse E d (source P) pos /\
       d = if is_left_assoc E cls
           then ReduceLeft (snd f) (TTuple []) (snd f) (BuildStruct cls [fst f])
           else ReduceRight (snd f) (TTuple []) (snd f) (BuildStruct cls [fst f])).
Proof.
  intros [Hf Hd] Hassoc.
  set (P1 := match cache_get cls (fieldmap P) with
             | Some _ => P
             | None => with_fieldmap P ((cls, _struct_fields E cls) :: fieldmap P)
             end).
  assert (H1 : cache_get cls (fieldmap P1) = Some (class_assignments E cls)
               /\ delegates P1 = delegates P /\ source P1 = source P).
  { subst P1. destruct (cache_get cls (fieldmap P)) as [fs|] eqn:Hc.
    - rewrite Hc. apply Hf in Hc. subst fs. auto.
    - simpl. rewrite Nat.eqb_refl. auto. }
  destruct H1 as (Hfm & Hdel & Hsrc).
  split.
  - intros Hnil. split.
    + unfold _parse, _parse_struct. fold P1. rewrite Hassoc.
      unfold _parse_assoc_struct. rewrite Hdel.
      destruct (cache_get cls (delegates P)) as [d|] eqn:Hc.
      * apply Hd in Hc. unfold _struct_fields in Hc. rewrite Hnil in Hc.
        discriminate.
      * rewrite Hfm, Hnil. reflexivity.
    + intros depth fuel src.
      assert (Hp : forall Q, fieldmap Q = [] -> delegates Q = [] ->
                             _parse E Q (TStruct cls) 0 = Exc IndexError).
      { intros Q Hq1 Hq2. unfold _parse, _parse_struct. rewrite Hq1, Hassoc.
        simpl. unfold _parse_assoc_struct. simpl. rewrite Hq2. simpl.
        rewrite Nat.eqb_refl. unfold _struct_fields. rewrite Hnil.
        reflexivity. }
      assert (Hstart : forall Q, fieldmap Q = [] -> delegates Q = [] ->
                memo_get (TStruct cls, 0) (memo Q) = None ->
                _start E depth Q (TStruct cls) 0 = Exc IndexError).
      { intros Q Hq1 Hq2 Hq3. unfold _start.
        replace (unwrap E depth (TStruct cls)) with (Some (TStruct cls))
          by (destruct depth; reflexivity).
        rewrite Hq3, Hp; [reflexivity | exact Hq1 | exact Hq2]. }
      split.
      * unfold parse_prefix, run, drive.
        rewrite Hstart; reflexivity.
      * unfold parse, parse_prefix, run. rewrite drive_whole.
        simpl. unfold loop_body. simpl.
        rewrite Hstart; reflexivity.
  - intros f Hone.
    assert (Hmk : make_delegate E cls [f] =
                  Ok (if is_left_assoc E cls
                      then ReduceLeft (snd f) (TTuple []) (snd f)
                                      (BuildStruct cls [fst f])
                      else ReduceRight (snd f) (TTuple []) (snd f)
                                       (BuildStruct cls [fst f])))
      by reflexivity.
    set (d := if is_left_assoc E cls
              then ReduceLeft (snd f) (TTuple []) (snd f) (BuildStruct cls [fst f])
              else ReduceRight (snd f) (TTuple []) (snd f) (BuildStruct cls [fst f]))
      in *.
    assert (Hinst : forall Q p, _parse_instance E Q d p = lib_parse E d (source Q) p)
      by (intros Q p; subst d; destruct (is_left_assoc E cls); reflexivity).
    destruct (cache_get cls (delegates P)) as [d0|] eqn:Hc.
    + pose proof (Hd _ _ Hc) as Hd0. unfold _struct_fields in Hd0.
      rewrite Hone, Hmk in Hd0. injection Hd0 as <-.
      exists (_parse_instance E P1 d pos), P1, d.
      split; [|split; [|split]].
      * unfold _parse, _parse_struct. fold P1. rewrite Hassoc.
        unfold _parse_assoc_struct. rewrite Hdel, Hc. reflexivity.
      * rewrite Hdel. exact Hc.
      * rewrite Hinst, Hsrc. reflexivity.
      * reflexivity.
    + set (P2 := with_delegates P1 ((cls, d) :: delegates P1)).
      exists (_parse_instance E P2 d pos), P2, d.
      split; [|split; [|split]].
      * assert (Hn : cache_get cls (delegates P1) = None)
          by (rewrite Hdel; exact Hc).
        unfold _parse, _parse_struct. fold P1. rewrite Hassoc.
        unfold _parse_assoc_struct. rewrite Hn, Hfm, Hone, Hmk. reflexivity.
      * subst P2. simpl. rewrite Nat.eqb_refl. reflexivity.
      * rewrite Hinst. subst P2. simpl. rewrite Hsrc. reflexivity.
      * reflexivity.
Qed.

Lemma assoc_struct_few_fields_witness :
  caches_ok odd_struct_env (Parser_init (SText "a")) /\
  is_left_assoc odd_struct_env 2 || is_right_assoc odd_struct_env 2 = true /\
  class_assignments odd_struct_env 2 = [] /\
  parse_prefix odd_struct_env 0 3 (TStruct 2) (SText "a") = Exc IndexError.
Proof.
  split; [apply caches_ok_init|]. split; [reflexivity|]. split; [reflexivity|].
  exact (proj1 (proj2 (proj1 (assoc_struct_few_fields odd_struct_env
           (Parser_init (SText "a")) 2 0 (caches_ok_init _ _) eq_refl) eq_refl)
           0 3 (SText "a"))).
Defined.

(** ** Regular expressions *)

(** X4. A regex term on a source that is not a string is a plain parse
    failure: its suspension yields [ParseFailure] before it touches the
    regex, the driver does not resume it, and [parse_prefix] raises
    ParseError (no TypeError).  On a string source, [parse_prefix] of a
    regex term returns the match object with the position [match.end()]
    when the regex matches at 0, and raises ParseError when it does not. *)
Theorem regex_term_outcomes E depth fuel re :
  (forall l P pos,
     source P = STokens l ->
     exists k, _parse E P (TRegex re) pos
               = Ok (Yield (Final ParseFailure) k, P)) /\
  (forall l,
     parse_prefix E depth (S fuel) (TRegex re) (STokens l) = Exc ParseError) /\
  (forall s,
     parse_prefix E depth (S fuel) (TRegex re) (SText s) =
     match regex_match E re s 0 with
     | Some (m, e) => Ok (Some (ParseResult m e))
     | None => Exc ParseError
     end).
Proof.
  split; [|split].
  - intros l P pos Hsrc. unfold _parse. simpl. rewrite Hsrc. simpl.
    eexists. reflexivity.
  - intros l. destruct depth, fuel; reflexivity.
  - intros s. unfold parse_prefix, run, drive, _start.
    destruct depth, fuel; simpl; unfold loop_body; simpl;
      destruct (regex_match E re s 0) as [[m e]|]; reflexivity.
Qed.

Lemma regex_term_outcomes_witness :
  source (Parser_init (STokens [VInt 1])) = STokens [VInt 1] /\
  (exists k, _parse regex_env (Parser_init (STokens [VInt 1])) (TRegex 0) 0
             = Ok (Yield (Final ParseFailure) k, Parser_init (STokens [VInt 1]))) /\
  parse_prefix regex_env 0 1 (TRegex 0) (SText "ab")
    = Ok (Some (ParseResult (VMatch 0 0 1) 1)).
Proof.
  split; [reflexivity|]. split.
  - exact (proj1 (regex_term_outcomes regex_env 0 0 0) [VInt 1]
             (Parser_init (STokens [VInt 1])) 0 eq_refl).
  - exact (proj2 (proj2 (regex_term_outcomes regex_env 0 0 0)) "ab").
Defined.

(** ** String literals on a string source *)

Lemma substring_zero n s : substring n 0 s = "".
Proof.
  revert s. induction n as [|n IH]; intros [|c s]; simpl; auto.
Qed.

Lemma substring_0_app w post :
  substring 0 (String.length w) (append w post) = w.
Proof.
  induction w as [|c w IH]; simpl.
  - apply substring_zero.
  - rewrite IH. reflexivity.
Qed.

Lemma substring_0_prefix w :
  forall s, substring 0 (String.length w) s = w ->
            exists post, s = append w post.
Proof.
  induction w as [|c w IH]; intros s H.
  - exists s. reflexivity.
  - destruct s as [|c' s]; simpl in H; [discriminate|].
    injection H as -> H. destruct (IH s H) as [post ->].
    exists post. reflexivity.
Qed.

Lemma substring_occurs pos :
  forall s w,
    (substring pos (String.length w) s = w /\ pos <= String.length s) <->
    (exists pre post,
       s = append pre (append w post) /\ String.length pre = pos).
Proof.
  induction pos as [|pos IH]; intros s w.
  - split.
    + intros [H _]. destruct (substring_0_prefix w s H) as [post ->].
      exists "", post. split; reflexivity.
    + intros (pre & post & -> & Hlen). destruct pre; [|discriminate].
      simpl. split; [apply substring_0_app | lia].
  - split.
    + intros [H Hle]. destruct s as [|c s]; [simpl in Hle; lia|].
      simpl in H, Hle. assert (Hle' : pos <= String.length s) by lia.
      destruct (proj1 (IH s w) (conj H Hle')) as (pre & post & -> & Hlen).
      exists (String c pre), post. simpl. split; congruence.
    + intros (pre & post & -> & Hlen). destruct pre as [|c pre]; [discriminate|].
      simpl in Hlen. injection Hlen as Hlen. simpl.
      destruct (proj2 (IH (append pre (append w post)) w)) as [H Hle].
      * exists pre, post. auto.
      * split; [exact H | lia].
Qed.

(** X5. On a string source, the suspension of a string term [w] at [pos]
    always answers and never raises: it succeeds exactly when the slice
    [source[pos : pos + len(w)]] equals [w], with the value [w] and the
    position [pos + len(w)], and fails otherwise.  For [pos] inside the
    source this is exactly: [w] occurs in the source at offset [pos].  The
    empty string succeeds at every position, also past the end of the
    source, without consuming. *)
Theorem text_literal_matches_slice E P w pos s :
  source P = SText s ->
  exists g,
    _parse E P (TStr w) pos = Ok (g, P) /\
    ((exists k, g = Yield (Final (ParseResult (VStr w) (pos + String.length w))) k)
       <-> substring pos (String.length w) s = w) /\
    ((exists k, g = Yield (Final ParseFailure) k)
       <-> substring pos (String.length w) s <> w) /\
    (pos <= String.length s ->
       ((exists k, g = Yield (Final (ParseResult (VStr w) (pos + String.length w))) k)
          <-> exists pre post,
                s = append pre (append w post) /\ String.length pre = pos)) /\
    (w = "" -> exists k, g = Yield (Final (ParseResult (VStr "") pos)) k).
Proof.
  intros Hsrc. exists (_parse_text (SText s) w pos).
  split; [unfold _parse; simpl; rewrite Hsrc; reflexivity|].
  unfold _parse_text, slice.
  replace (pos + String.length w - pos) with (String.length w) by lia.
  assert (Hcases :
    ((exists k, (if String.eqb (substring pos (String.length w) s) w
                 then Yield (Final (ParseResult (VStr w) (pos + String.length w))) stop
                 else Yield (Final ParseFailure) stop)
                = Yield (Final (ParseResult (VStr w) (pos + String.length w))) k)
       <-> substring pos (String.length w) s = w) /\
    ((exists k, (if String.eqb (substring pos (String.length w) s) w
                 then Yield (Final (ParseResult (VStr w) (pos + String.length w))) stop
                 else Yield (Final ParseFailure) stop)
                = Yield (Final ParseFailure) k)
       <-> substring pos (String.length w) s <> w)).
  { destruct (String.eqb (substring pos (String.length w) s) w) eqn:Heq.
    - apply String.eqb_eq in Heq. split; split.
      + intros _. exact Heq.
      + intros _. eexists. reflexivity.
      + intros [k H]. discriminate.
      + intros H. contradiction.
    - apply String.eqb_neq in Heq. split; split.
      + intros [k H]. discriminate.
      + intros H. contradiction.
      + intros _. exact Heq.
      + intros _. eexists. reflexivity. }
  destruct Hcases as [Hyes Hno].
  split; [exact Hyes|]. split; [exact Hno|]. split.
  - intros Hle. rewrite Hyes. rewrite <- substring_occurs. tauto.
  - intros ->. simpl. rewrite substring_zero. simpl.
    rewrite Nat.add_0_r. eexists. reflexivity.
Qed.

Lemma text_literal_matches_slice_witness :
  source (Parser_init (SText "abc")) = SText "abc" /\
  1 <= String.length "abc" /\
  exists g,
    _parse empty_env (Parser_init (SText "abc")) (TStr "bc") 1
      = Ok (g, Parser_init (SText "abc")) /\
    exists k, g = Yield (Final (ParseResult (VStr "bc") (1 + String.length "bc"))) k.
Proof.
  split; [reflexivity|]. split; [simpl; lia|].
  destruct (text_literal_matches_slice empty_env (Parser_init (SText "abc"))
              "bc" 1 "abc" eq_refl)
    as (g & Hp & _ & _ & Hocc & _).
  exists g. split; [exact Hp|].
  assert (Hle : 1 <= String.length "abc") by (simpl; lia).
  apply (Hocc Hle). exists "a", "". split; reflexivity.
Defined.

Lemma literal_whole_source w s :
  (substring 0 (String.length w) s = w /\ String.length w = String.length s)
  <-> w = s.
Proof.
  split.
  - intros [H Hlen]. destruct (substring_0_prefix w s H) as [post ->].
    destruct post as [|c post].
    + clear. induction w as [|c w IH]; simpl; congruence.
    + exfalso. clear H. induction w as [|c0 w IH]; simpl in Hlen; [lia|].
      injection Hlen as Hlen. auto.
  - intros <-. split; [|reflexivity].
    assert (Hw : append w "" = w)
      by (clear; induction w as [|c w IH]; simpl; congruence).
    rewrite <- Hw at 2. apply substring_0_app.
Qed.

Lemma _parse_text_at_0 w s :
  _parse_text (SText s) w 0 =
  if String.prefix w s
  then Yield (Final (ParseResult (VStr w) (String.length w))) stop
  else Yield (Final ParseFailure) stop.
Proof.
  unfold _parse_text, slice. simpl. rewrite Nat.sub_0_r.
  destruct (String.prefix w s) eqn:Hp.
  - apply prefix_correct in Hp. rewrite Hp, String.eqb_refl. reflexivity.
  - destruct (String.eqb (substring 0 (String.length w) s) w) eqn:Heq;
      [|reflexivity].
    apply String.eqb_eq in Heq. apply prefix_correct in Heq. congruence.
Qed.

(** X6. On a string source, [parse_prefix] of a string literal returns
    the literal and its length when the source starts with it and raises
    ParseError when it does not. *)
Theorem literal_prefix_outcomes E depth fuel w s :
  parse_prefix E depth (1 + fuel) (TStr w) (SText s) =
    (if String.prefix w s
     then Ok (Some (ParseResult (VStr w) (String.length w)))
     else Exc ParseError).
Proof.
  unfold parse_prefix, run, drive, _start.
  destruct depth, fuel; cbn -[_parse_text]; unfold loop_body;
    cbn -[_parse_text]; rewrite _parse_text_at_0;
    destruct (String.prefix w s); reflexivity.
Qed.

(** X14. On a string source, [parse] of a string literal ([Left] and
    [End] being as the spec describes them) returns the literal when the
    source is that very string and raises ParseError for every other
    source. *)
Theorem literal_parse_outcomes E depth fuel w s :
  parse E depth (5 + fuel) (TStr w) (SText s) =
    (if String.eqb w s then Ok (VStr w) else Exc ParseError).
Proof.
  assert (Hend : Nat.eqb (String.length w) (String.length s) = true ->
                 String.prefix w s = true -> String.eqb w s = true).
  { intros H1 H2. apply String.eqb_eq. apply literal_whole_source.
    split; [apply prefix_correct; exact H2 | apply Nat.eqb_eq; exact H1]. }
  assert (Hend' : String.eqb w s = true ->
                  String.prefix w s = true /\
                  Nat.eqb (String.length w) (String.length s) = true).
  { intros H. apply String.eqb_eq in H. apply literal_whole_source in H.
    destruct H as [H1 H2]. split; [apply prefix_correct; exact H1|].
    apply Nat.eqb_eq. exact H2. }
  assert (Hrun : forall pre len,
            String.prefix w s = pre ->
            Nat.eqb (String.length w) (String.length s) = len ->
            parse E depth (5 + fuel) (TStr w) (SText s) =
            if pre && len then Ok (VStr w) else Exc ParseError).
  { intros pre len Hp Hl.
    unfold parse, parse_prefix, run. rewrite drive_whole.
    destruct depth, fuel;
      cbn -[_parse_text key_eqb]; unfold loop_body;
      cbn -[_parse_text key_eqb]; unfold _start;
      cbn -[_parse_text key_eqb];
      rewrite ?key_eqb_neq by discriminate;
      cbn -[_parse_text key_eqb];
      rewrite _parse_text_at_0, Hp;
      destruct pre;
      cbn -[_parse_text key_eqb];
      rewrite ?key_eqb_neq by discriminate;
      cbn -[_parse_text key_eqb];
      rewrite ?Hl; destruct len; reflexivity. }
  rewrite (Hrun _ _ eq_refl eq_refl).
  destruct (String.eqb w s) eqn:Hws.
  - destruct (Hend' eq_refl) as [-> ->]. reflexivity.
  - destruct (String.prefix w s) eqn:Hp;
      destruct (Nat.eqb (String.length w) (String.length s)) eqn:Hl;
      try reflexivity.
    discriminate (Hend eq_refl eq_refl).
Qed.

(** ** The discipline of the driver *)

Section Discipline.

Variable E : Env.
Variable depth : nat.

Lemma protocol_start P term pos key k rest s P' :
  stack P = (key, Suspended k) :: rest ->
  Forall started rest ->
  _start E depth P term pos = Ok (s, P') ->
  exists key' top' rest',
    stack P' = (key', top') :: rest' /\ send_fits top' s /\
    Forall started rest'.
Proof.
  intros Hs Hrest H. apply _start_inv in H.
  destruct H as (t & _ & [(a & _ & -> & ->) | (_ & -> & g & P2 & Hp & ->)]).
  - exists key, (Suspended k), rest. simpl. auto.
  - apply _parse_frame in Hp. destruct Hp as (_ & _ & Hstack).
    simpl in Hstack. exists (t, pos), (Fresh g), (stack P2).
    simpl. split; [reflexivity|]. split; [exact I|].
    rewrite Hstack, Hs. constructor; [exact I | exact Hrest].
Qed.

(** X7. In every state of a run the driver sends [None] only to a
    suspension that has not been started and an answer only to one that is
    suspended at a request, and every frame below the top one has been
    started: [send] never fails for sending the wrong kind of value. *)
Theorem driver_send_protocol src term P ans key top rest :
  reachable E depth src term P ans ->
  stack P = (key, top) :: rest ->
  send_fits top ans /\ Forall started rest /\
  send top ans = match top with
                 | Fresh body => body
                 | Suspended k => k ans
                 end.
Proof.
  intros Hr. assert (Hinv : forall key top rest,
    stack P = (key, top) :: rest -> send_fits top ans /\ Forall started rest).
  { clear key top rest.
    induction Hr as [P ans H | P ans P' ans' _ IH Ht]; intros key top rest Hs.
    - apply _start_inv in H.
      destruct H as (t & _ & [(a & Ha & _) | (_ & -> & g & P2 & Hp & ->)]);
        [discriminate|].
      apply _parse_frame in Hp. destruct Hp as (_ & _ & Hstack).
      simpl in Hs, Hstack. rewrite Hstack in Hs. injection Hs as <- <- <-.
      split; [exact I | constructor].
    - inversion Ht as [? ? key0 top0 rest0 ? ? Hs0 Hb]; subst.
      destruct (IH _ _ _ Hs0) as [Hfit Hrest]. unfold loop_body in Hb.
      destruct (send top0 ans) as [[t p | a] k | | e]; try discriminate.
      + destruct (protocol_start (with_stack P ((key0, Suspended k) :: rest0))
                    t p key0 k rest0 _ _ eq_refl Hrest Hb)
          as (key' & top' & rest' & Hs' & Hfit' & Hrest').
        rewrite Hs' in Hs. injection Hs as <- <- <-. auto.
      + inversion Hb; subst. simpl in Hs. rewrite Hs in Hrest.
        inversion Hrest as [|f l Hf Hl]; subst. split; [|exact Hl].
        unfold started in Hf. simpl in Hf. destruct top; [contradiction|].
        exact I. }
  intros Hs. destruct (Hinv _ _ _ Hs) as [Hfit Hrest].
  split; [exact Hfit|]. split; [exact Hrest|].
  destruct top, ans; simpl in *; try contradiction; reflexivity.
Qed.

Lemma memo_keeps_turn P ans P' ans' k :
  turn E depth (P, ans) (P', ans') ->
  memo_get k (memo P) <> None -> memo_get k (memo P') <> None.
Proof.
  intros Ht Hk. inversion Ht as [? ? key top rest ? ? Hs Hb]; subst.
  unfold loop_body in Hb.
  destruct (send top ans) as [[t p | a] kk | | e]; try discriminate.
  - apply _start_inv in Hb.
    destruct Hb as (t' & _ & [(a & _ & _ & ->) | (_ & _ & g & P2 & Hp & ->)]).
    + exact Hk.
    + apply _parse_frame in Hp. destruct Hp as (_ & Hmemo & _).
      simpl. rewrite Hmemo. simpl.
      destruct (key_eqb k (t', p)); [discriminate | exact Hk].
  - inversion Hb; subst. simpl.
    destruct (key_eqb k key); [discriminate | exact Hk].
Qed.

Lemma memo_keeps_turns S S' k :
  turns E depth S S' ->
  memo_get k (memo (fst S)) <> None -> memo_get k (memo (fst S')) <> None.
Proof.
  induction 1 as [S | S1 S2 S3 _ IH Ht]; intros Hk; [exact Hk|].
  destruct S2 as [P2 a2], S3 as [P3 a3]. simpl in *.
  eapply memo_keeps_turn; [exact Ht | auto].
Qed.

(** X8. A turn of the loop that leaves [None] as the answer has put
    exactly one new suspension on the stack, for a pair that was in the memo
    at no earlier state of the parse and now holds the tentative failure; any
    other turn does not grow the stack; and a pair once in the memo stays in
    it.  So no (term, position) pair gets a second suspension in a parse. *)
Theorem pair_started_once P0 a0 P1 a1 P2 a2 :
  turns E depth (P0, a0) (P1, a1) ->
  turn E depth (P1, a1) (P2, a2) ->
  (a2 = None ->
     exists k g,
       stack P2 = (k, Fresh g) :: tl (stack P2) /\
       List.length (stack P2) = S (List.length (stack P1)) /\
       memo_get k (memo P0) = None /\
       memo_get k (memo P1) = None /\
       memo_get k (memo P2) = Some ParseFailure) /\
  (a2 <> None -> List.length (stack P2) <= List.length (stack P1)) /\
  (forall k, memo_get k (memo P0) <> None -> memo_get k (memo P2) <> None).
Proof.
  intros Hts Ht. split; [|split].
  - intros ->. inversion Ht as [? ? key top rest ? ? Hs Hb]; subst.
    unfold loop_body in Hb.
    destruct (send top a1) as [[t p | a] kk | | e]; try discriminate.
    apply _start_inv in Hb.
    destruct Hb as (t' & _ & [(a & _ & Ha & _) | (Hnone & _ & g & P' & Hp & ->)]);
      [discriminate|].
    apply _parse_frame in Hp. destruct Hp as (_ & Hmemo & Hstack).
    simpl in Hnone, Hmemo, Hstack.
    exists (t', p), g. simpl. rewrite Hstack, Hs, Hmemo. simpl.
    split; [reflexivity|]. split; [reflexivity|]. split; [|split].
    + destruct (memo_get (t', p) (memo P0)) eqn:H0; [|reflexivity].
      exfalso.
      apply (memo_keeps_turns (P0, a0) (P1, a1) (t', p) Hts); simpl;
        congruence.
    + exact Hnone.
    + rewrite key_eqb_refl. reflexivity.
  - intros Hne. inversion Ht as [? ? key top rest ? ? Hs Hb]; subst.
    unfold loop_body in Hb.
    destruct (send top a1) as [[t p | a] kk | | e]; try discriminate.
    + apply _start_inv in Hb.
      destruct Hb as (t' & _ & [(a & _ & _ & ->) | (_ & -> & _)]);
        [|contradiction].
      simpl. rewrite Hs. simpl. lia.
    + inversion Hb; subst. simpl. rewrite Hs. simpl. lia.
  - intros k Hk.
    eapply memo_keeps_turn; [exact Ht|].
    apply (memo_keeps_turns (P0, a0) (P1, a1) k Hts). exact Hk.
Qed.

Lemma unwrap_resolved d t t' :
  unwrap E d t = Some t' -> forall r, t' <> ForwardRef r.
Proof.
  revert t. induction d as [|d IH]; intros t Hu r;
    destruct t; simpl in Hu; try discriminate;
    try (injection Hu as <-; discriminate).
  eapply IH. exact Hu.
Qed.

Lemma resolved_start Q t p s Q' :
  (forall k a r, In (k, a) (memo Q) -> fst k <> ForwardRef r) ->
  (forall k g r, In (k, g) (stack Q) -> fst k <> ForwardRef r) ->
  _start E depth Q t p = Ok (s, Q') ->
  (forall k a r, In (k, a) (memo Q') -> fst k <> ForwardRef r) /\
  (forall k g r, In (k, g) (stack Q') -> fst k <> ForwardRef r).
Proof.
  intros Hm Hs H. apply _start_inv in H.
  destruct H as (t' & Hu & [(a & _ & _ & ->) | (_ & _ & g & P2 & Hp & ->)]);
    [split; assumption|].
  apply _parse_frame in Hp. destruct Hp as (_ & Hmemo & Hstack).
  simpl in Hmemo, Hstack. simpl. rewrite Hmemo, Hstack.
  split; intros k x r [Heq | Hin]; eauto;
    injection Heq as <- _; simpl; eapply unwrap_resolved; exact Hu.
Qed.

Lemma resolved_reachable src term P ans :
  reachable E depth src term P ans ->
  (forall k a r, In (k, a) (memo P) -> fst k <> ForwardRef r) /\
  (forall k g r, In (k, g) (stack P) -> fst k <> ForwardRef r).
Proof.
  induction 1 as [P ans H | P ans P' ans' _ IH Ht].
  - eapply resolved_start; [| |exact H]; intros k x r [].
  - destruct IH as [Hm Hs].
    inversion Ht as [? ? key top rest ? ? Hst Hb]; subst.
    unfold loop_body in Hb.
    destruct (send top ans) as [[t p | a] kk | | e]; try discriminate.
    + eapply resolved_start; [| |exact Hb]; simpl; [exact Hm|].
      intros k g r [Heq | Hin].
      * injection Heq as <- _. eapply Hs. rewrite Hst. left. reflexivity.
      * eapply Hs. rewrite Hst. right. exact Hin.
    + inversion Hb; subst. simpl. split.
      * intros k x r [Heq | Hin].
        -- injection Heq as <- _. eapply Hs. rewrite Hst. left. reflexivity.
        -- eapply Hm. exact Hin.
      * intros k g r Hin. eapply Hs. rewrite Hst. right. exact Hin.
Qed.

(** X9. The memo and the stack are keyed by resolved terms only: in every
    state of a run no key is a [ForwardRef]; and two terms that
    resolve to the same term are started in the same way, so they share
    one memo entry. *)
Theorem memo_keys_are_resolved src term P ans :
  reachable E depth src term P ans ->
  (forall k a r, In (k, a) (memo P) -> fst k <> ForwardRef r) /\
  (forall k g r, In (k, g) (stack P) -> fst k <> ForwardRef r) /\
  (forall t1 t2 pos,
     unwrap E depth t1 = unwrap E depth t2 ->
     _start E depth P t1 pos = _start E depth P t2 pos).
Proof.
  intros Hr. destruct (resolved_reachable _ _ _ _ Hr) as [Hm Hs].
  split; [exact Hm|]. split; [exact Hs|].
  intros t1 t2 pos Hu. unfold _start. rewrite Hu. reflexivity.
Qed.

End Discipline.

Section Entries.

Variable E : Env.
Variable depth : nat.

Lemma bottom_key_cons x y s d :
  bottom_key (x :: y :: s) d = bottom_key (y :: s) d.
Proof. reflexivity. Qed.

Lemma bottom_key_head g g' key s d :
  bottom_key ((key, g) :: s) d = bottom_key ((key, g') :: s) d.
Proof. destruct s; reflexivity. Qed.

Lemma start_entry_turn k0 P ans P' ans' :
  start_entry k0 P ans -> turn E depth (P, ans) (P', ans') ->
  start_entry k0 P' ans'.
Proof.
  intros Hb Ht. inversion Ht as [? ? key top rest ? ? Hs Hbody]; subst.
  unfold start_entry in Hb. rewrite Hs in Hb. unfold loop_body in Hbody.
  destruct (send top ans) as [[t p | a] k | | e]; try discriminate.
  - apply _start_inv in Hbody.
    destruct Hbody as (t' & _ & [(a & _ & _ & ->) | (_ & _ & g & P2 & Hp & ->)]).
    + unfold start_entry. simpl.
      rewrite (bottom_key_head _ top). exact Hb.
    + apply _parse_frame in Hp. destruct Hp as (_ & _ & Hstack).
      unfold start_entry. simpl. rewrite Hstack. simpl.
      rewrite bottom_key_cons, (bottom_key_head _ top). exact Hb.
  - inversion Hbody; subst. unfold start_entry. simpl.
    destruct rest as [|f rest'].
    + unfold bottom_key in Hb. simpl in Hb. subst key.
      exists a. rewrite key_eqb_refl. auto.
    + rewrite bottom_key_cons in Hb. exact Hb.
Qed.

Lemma start_entry_run_loop k0 fuel :
  forall P ans ans' P',
    start_entry k0 P ans ->
    run_loop E depth fuel P ans = Ok (ans', P') ->
    start_entry k0 P' ans' /\ stack P' = [] /\ source P' = source P.
Proof.
  induction fuel as [|fuel IH]; intros P ans ans' P' Hb H;
    simpl in H; destruct (stack P) as [|[key top] rest] eqn:Hs;
    try discriminate.
  - inversion H; subst. auto.
  - inversion H; subst. auto.
  - destruct (loop_body E depth P ans key top rest) as [[a1 P1]| |] eqn:Hbody;
      try discriminate.
    assert (Ht : turn E depth (P, ans) (P1, a1))
      by (econstructor; eassumption).
    destruct (IH P1 a1 ans' P' (start_entry_turn _ _ _ _ _ Hb Ht) H)
      as (Hb' & Hs' & Hsrc).
    split; [assumption|]. split; [assumption|].
    rewrite Hsrc. eapply turn_source. eassumption.
Qed.

(** X10. When the loop of [run] ends, the stack is empty, the source is
    the one the parser was made for, and the answer is exactly what the
    memo now holds for the start pair: the term the start term resolves
    to, at position 0. *)
Theorem run_answer_is_start_entry src term fuel ans P' :
  drive E depth fuel (Parser_init src) term = Ok (ans, P') ->
  exists t a,
    unwrap E depth term = Some t /\
    ans = Some a /\
    memo_get (t, 0) (memo P') = Some a /\
    stack P' = [] /\ source P' = src.
Proof.
  unfold drive. intros H.
  destruct (_start E depth (Parser_init src) term 0) as [[s P1]| |] eqn:Hst;
    try discriminate.
  apply _start_inv in Hst.
  destruct Hst as (t & Hu & [(a & Ha & _) | (_ & -> & g & P2 & Hp & ->)]);
    [discriminate|].
  pose proof (_parse_frame _ _ _ _ _ _ Hp) as (Hsrc & _ & Hstack).
  simpl in Hsrc, Hstack.
  assert (Hb : start_entry (t, 0)
                 (with_stack P2 (((t, 0), Fresh g) :: stack P2)) None).
  { unfold start_entry. simpl. rewrite Hstack. reflexivity. }
  destruct (start_entry_run_loop (t, 0) fuel _ _ _ _ Hb H) as (Hb' & Hs' & Hsrc').
  unfold start_entry in Hb'. rewrite Hs' in Hb'.
  destruct Hb' as (a & -> & Hm).
  exists t, a. split; [exact Hu|]. split; [reflexivity|].
  split; [exact Hm|]. split; [exact Hs'|].
  rewrite Hsrc'. simpl. exact Hsrc.
Qed.

Lemma _parse_caches_grow P t pos g P' :
  _parse E P t pos = Ok (g, P') ->
  (forall cls fs, cache_get cls (fieldmap P) = Some fs ->
     cache_get cls (fieldmap P') = Some fs) /\
  (forall cls d, cache_get cls (delegates P) = Some d ->
     cache_get cls (delegates P') = Some d).
Proof.
  unfold _parse. destruct t; try (intros [= <- <-]; auto).
  unfold _parse_struct.
  set (P1 := match cache_get cls (fieldmap P) with
             | Some _ => P | None => _ end).
  assert (H1 : (forall c fs, cache_get c (fieldmap P) = Some fs ->
                  cache_get c (fieldmap P1) = Some fs) /\
               delegates P1 = delegates P).
  { subst P1. destruct (cache_get cls (fieldmap P)) eqn:Hc; [auto|].
    split; [|reflexivity]. intros c fs Hfs. simpl.
    destruct (Nat.eqb c cls) eqn:Hcc; [|exact Hfs].
    apply Nat.eqb_eq in Hcc. subst c. congruence. }
  destruct H1 as [Hf1 Hd1].
  destruct (is_left_assoc E cls || is_right_assoc E cls).
  - unfold _parse_assoc_struct.
    destruct (cache_get cls (delegates P1)) as [d0|] eqn:Hdel.
    + intros [= <- <-]. rewrite Hd1. auto.
    + destruct (cache_get cls (fieldmap P1)) as [fs|]; try discriminate.
      destruct (make_delegate E cls fs) as [d| |]; try discriminate.
      intros [= <- <-]. simpl. split; [exact Hf1|].
      intros c d' Hd'. rewrite <- Hd1 in Hd'.
      destruct (Nat.eqb c cls) eqn:Hcc; [|exact Hd'].
      apply Nat.eqb_eq in Hcc. subst c. congruence.
  - intros [= <- <-]. rewrite Hd1. auto.
Qed.

Lemma caches_turn P ans P' ans' :
  caches_ok E P -> turn E depth (P, ans) (P', ans') ->
  caches_ok E P' /\
  (forall cls fs, cache_get cls (fieldmap P) = Some fs ->
     cache_get cls (fieldmap P') = Some fs) /\
  (forall cls d, cache_get cls (delegates P) = Some d ->
     cache_get cls (delegates P') = Some d).
Proof.
  intros Hc Ht. inversion Ht as [? ? key top rest ? ? Hs Hb]; subst.
  unfold loop_body in Hb.
  destruct (send top ans) as [[t p | a] k | | e]; try discriminate.
  - apply _start_inv in Hb.
    destruct Hb as (t' & _ & [(a & _ & _ & ->) | (_ & _ & g & P2 & Hp & ->)]).
    + auto.
    + assert (Hc1 : caches_ok E
                (with_memo (with_stack P ((key, Suspended k) :: rest))
                   (memo_set (t', p) ParseFailure
                      (memo (with_stack P ((key, Suspended k) :: rest))))))
        by exact Hc.
      split.
      * exact (_parse_caches E _ _ _ _ _ Hc1 Hp).
      * exact (_parse_caches_grow _ _ _ _ _ Hp).
  - inversion Hb; subst. auto.
Qed.

(** X11. In every state of a run the field-layout cache holds, for each
    struct class in it, the list [_struct_fields] computes, and the delegate
    cache holds the reducer compiled from that list; an entry, once made,
    is there unchanged in every later state: each class is laid out and
    compiled at most once in a parse. *)
Theorem caches_stay_correct src term P ans P' ans' :
  reachable E depth src term P ans ->
  turns E depth (P, ans) (P', ans') ->
  caches_ok E P /\ caches_ok E P' /\
  (forall cls fs, cache_get cls (fieldmap P) = Some fs ->
     cache_get cls (fieldmap P') = Some fs /\ fs = _struct_fields E cls) /\
  (forall cls d, cache_get cls (delegates P) = Some d ->
     cache_get cls (delegates P') = Some d /\
     make_delegate E cls (_struct_fields E cls) = Ok d).
Proof.
  intros Hr Hts.
  assert (Hc : caches_ok E P).
  { clear Hts P' ans'. induction Hr as [P ans H | P ans P' ans' _ IH Ht].
    - apply _start_inv in H.
      destruct H as (t & _ & [(a & _ & _ & ->) | (_ & _ & g & P2 & Hp & ->)]).
      + apply caches_ok_init.
      + assert (Hc1 : caches_ok E
                  (with_memo (Parser_init src)
                     (memo_set (t, 0) ParseFailure (memo (Parser_init src)))))
          by apply (caches_ok_init E src).
        exact (_parse_caches E _ _ _ _ _ Hc1 Hp).
    - exact (proj1 (caches_turn _ _ _ _ IH Ht)). }
  assert (Hgrow : caches_ok E P' /\
    (forall cls fs, cache_get cls (fieldmap P) = Some fs ->
       cache_get cls (fieldmap P') = Some fs) /\
    (forall cls d, cache_get cls (delegates P) = Some d ->
       cache_get cls (delegates P') = Some d)).
  { remember (P, ans) as S eqn:HS. remember (P', ans') as S' eqn:HS'.
    revert P' ans' HS'.
    induction Hts as [S0 | S1 S2 S3 _ IH Ht]; intros P' ans' HS'; subst.
    - injection HS' as <- <-. auto.
    - destruct S2 as [P2 a2].
      destruct (IH eq_refl P2 a2 eq_refl) as (Hc2 & Hf2 & Hd2).
      destruct (caches_turn _ _ _ _ Hc2 Ht) as (Hc3 & Hf3 & Hd3).
      split; [exact Hc3|]. split; eauto. }
  destruct Hgrow as (Hc' & Hf & Hd). destruct Hc as [Hcf Hcd].
  split; [split; assumption|]. split; [exact Hc'|]. split.
  - intros cls fs H. split; [apply Hf; exact H | apply Hcf; exact H].
  - intros cls d H. split; [apply Hd; exact H | apply Hcd; exact H].
Qed.

End Entries.

(** ** Memo entries of the terms that answer at once *)

Section Leaves.

Variable E : Env.
Variable depth : nat.

Lemma instance_source P P' t p :
  source P = source P' -> _parse_instance E P t p = _parse_instance E P' t p.
Proof. intros H. unfold _parse_instance. rewrite H. reflexivity. Qed.

Lemma leaf_parse P t p :
  leaf t = true -> _parse E P t p = Ok (_parse_instance E P t p, P).
Proof. destruct t; try discriminate; reflexivity. Qed.

Lemma leaf_no_request P t p t' q k :
  leaf t = true -> _parse_instance E P t p <> Yield (ParseStep t' q) k.
Proof.
  destruct t; try discriminate; intros _; simpl.
  - unfold _parse_string, _parse_text, _parse_token, _parse_token_rest.
    destruct (source P) as [s0|l].
    + destruct (String.eqb _ _); discriminate.
    + destruct (Nat.leb _ _); [discriminate|].
      destruct (source_index (STokens l) p) as [x|]; [|discriminate].
      destruct (getattr_content x); [|discriminate].
      destruct (value_eqb _ _); discriminate.
  - unfold _parse_regex, _parse_regex_rest. destruct (source P) as [s0|l].
    + destruct (regex_match E re s0 p) as [[m e]|]; discriminate.
    + discriminate.
  - destruct (Nat.eqb p (source_len (source P))); discriminate.
  - destruct p; discriminate.
  - destruct (source_index (source P) p) as [x|]; [|discriminate].
    destruct (value_eqb x v); discriminate.
Qed.

Lemma In_tl {A : Type} (x : A) (l : list A) : In x (tl l) -> In x l.
Proof. destruct l; simpl; auto. Qed.

(** [_start] on a parser all of whose frames are frames of terms that
    make requests. *)
Lemma leaf_start Q t p s Q' :
  (forall t0 p0 a, leaf t0 = true -> memo_get (t0, p0) (memo Q) = Some a ->
     (exists k, _parse_instance E Q t0 p0 = Yield (Final a) k) \/
     (a = ParseFailure /\ In (t0, p0) (keys (stack Q)))) ->
  (forall t0 p0 g, In ((t0, p0), g) (stack Q) -> leaf t0 = false) ->
  _start E depth Q t p = Ok (s, Q') ->
  leaf_state E Q'.
Proof.
  intros Hm Hall H. apply _start_inv in H.
  destruct H as (t' & Hu & [(a & _ & _ & ->) | (Hnone & _ & g & P2 & Hp & ->)]).
  - split; [exact Hm|]. split.
    + intros t0 p0 g Hin Hleaf. apply Hall in Hin. congruence.
    + intros t0 p0 g Hin. eapply Hall. apply In_tl. exact Hin.
  - pose proof (_parse_frame _ _ _ _ _ _ Hp) as (Hsrc & Hmemo & Hstack).
    simpl in Hsrc, Hmemo, Hstack.
    assert (Hinst : forall t0 p0,
              _parse_instance E (with_stack P2 (((t', p), Fresh g) :: stack P2))
                              t0 p0 = _parse_instance E Q t0 p0)
      by (intros; apply instance_source; exact Hsrc).
    split; [|split].
    + intros t0 p0 a Hleaf. rewrite Hinst. simpl. rewrite Hmemo, Hstack. simpl.
      destruct (key_eqb (t0, p0) (t', p)) eqn:Hk.
      * intros [= <-]. right. split; [reflexivity|]. left.
        apply key_eqb_eq in Hk. auto.
      * intros Ha.
        destruct (Hm t0 p0 a Hleaf Ha) as [Hl | [-> Hin]]; [left; exact Hl|].
        right. split; [reflexivity|]. right. exact Hin.
    + intros t0 p0 g0. rewrite Hinst. simpl. rewrite Hstack.
      intros [Heq | Hin] Hleaf.
      * injection Heq as <- <- <-.
        rewrite (leaf_parse _ _ _ Hleaf) in Hp. injection Hp as <- _.
        f_equal.
      * apply Hall in Hin. congruence.
    + intros t0 p0 g0. simpl. rewrite Hstack. apply Hall.
Qed.

Lemma leaf_turn P ans P' ans' :
  leaf_state E P -> turn E depth (P, ans) (P', ans') -> leaf_state E P'.
Proof.
  intros (Hm & Hf & Hl) Ht.
  inversion Ht as [? ? [t0 p0] top rest ? ? Hs Hb]; subst.
  unfold loop_body in Hb. rewrite Hs in Hf, Hl. simpl in Hl.
  destruct (send top ans) as [[t p | a] k | | e] eqn:Hsend; try discriminate.
  - assert (Hkey : leaf t0 = false).
    { destruct (leaf t0) eqn:Hleaf; [|reflexivity]. exfalso.
      rewrite (Hf t0 p0 top (or_introl eq_refl) Hleaf) in Hsend.
      destruct ans; simpl in Hsend; [discriminate|].
      eapply leaf_no_request; eassumption. }
    eapply leaf_start; [| |exact Hb].
    + intros t1 p1 a Hleaf Ha. simpl in *.
      destruct (Hm t1 p1 a Hleaf Ha) as [H | [-> Hin]]; [left; exact H|].
      right. split; [reflexivity|]. rewrite Hs in Hin. exact Hin.
    + intros t1 p1 g. simpl. intros [Heq | Hin].
      * injection Heq as <- _ _. exact Hkey.
      * eapply Hl. exact Hin.
  - inversion Hb; subst. split; [|split].
    + intros t1 p1 a1 Hleaf. simpl.
      destruct (key_eqb (t1, p1) (t0, p0)) eqn:Hk.
      * apply key_eqb_eq in Hk. injection Hk as -> ->. intros [= <-].
        left. rewrite (Hf t0 p0 top (or_introl eq_refl) Hleaf) in Hsend.
        destruct ans; simpl in Hsend; [discriminate|].
        exists k. exact Hsend.
      * intros Ha.
        destruct (Hm t1 p1 a1 Hleaf Ha) as [H | [-> Hin]]; [left; exact H|].
        right. split; [reflexivity|]. rewrite Hs in Hin. simpl in Hin.
        destruct Hin as [Heq | Hin]; [|exact Hin].
        rewrite Heq, key_eqb_refl in Hk. discriminate.
    + intros t1 p1 g Hin Hleaf. simpl in Hin.
      apply (Hf t1 p1 g (or_intror Hin) Hleaf).
    + intros t1 p1 g Hin. simpl in Hin. eapply Hl. apply In_tl. exact Hin.
Qed.

Lemma leaf_reachable src term P ans :
  reachable E depth src term P ans -> leaf_state E P.
Proof.
  induction 1 as [P ans H | P ans P' ans' _ IH Ht].
  - eapply leaf_start; [| |exact H].
    + intros t0 p0 a _ Ha. discriminate.
    + intros t0 p0 g [].
  - eapply leaf_turn; eassumption.
Qed.

(** X12. For the terms that answer at once (the absent term, string and
    regex terms, and the primitives [End], [Backtrack], [Return],
    [Literal] as the spec describes them), memoization is transparent: whenever a request for such a
    term at [p] is answered from the memo, the answer is exactly what the
    term's own suspension yields at [p]; the tentative failure of such a
    pair is never read. *)
Theorem primitive_reads_are_exact src term P ans t p a :
  reachable E depth src term P ans ->
  reads E depth P ans (t, p) a ->
  leaf t = true ->
  exists k, _parse_instance E P t p = Yield (Final a) k.
Proof.
  intros Hr (k0 & top & rest & t1 & k & Hs & Hsend & _ & Ha) Hleaf.
  destruct (leaf_reachable _ _ _ _ Hr) as (Hm & Hf & Hl).
  simpl in Hsend.
  destruct (Hm t p a Hleaf Ha) as [H | [-> Hin]]; [exact H|].
  exfalso. rewrite Hs in Hin, Hf, Hl. simpl in Hin, Hl.
  destruct Hin as [Heq | Hin].
  - subst k0. rewrite (Hf t p top (or_introl eq_refl) Hleaf) in Hsend.
    destruct ans; simpl in Hsend; [discriminate|].
    eapply leaf_no_request; eassumption.
  - unfold keys in Hin. apply in_map_iff in Hin.
    destruct Hin as ([[t2 p2] g] & Heq & Hin). simpl in Heq.
    injection Heq as -> ->. apply Hl in Hin. congruence.
Qed.

End Leaves.

Lemma primitive_reads_are_exact_witness :
  exists P ans,
    reachable empty_env 0 (SText "") empty_twice P ans /\
    reads empty_env 0 P ans (TStr "", 0) (ParseResult (VStr "") 0) /\
    leaf (TStr "") = true /\
    exists k, _parse_instance empty_env P (TStr "") 0
              = Yield (Final (ParseResult (VStr "") 0)) k.
Proof.
  do 2 eexists. split; [reach 2|].
  split; [do 5 eexists; repeat split; reflexivity|].
  split; [reflexivity|].
  refine (primitive_reads_are_exact empty_env 0 (SText "") empty_twice
            _ _ (TStr "") 0 (ParseResult (VStr "") 0) _ _ eq_refl).
  - reach 2.
  - do 5 eexists. repeat split; reflexivity.
Defined.

Lemma driver_send_protocol_witness :
  exists P ans key top rest,
    reachable maybe_env 1 (SText "") maybe_twice P ans /\
    stack P = (key, top) :: rest /\
    send_fits top ans /\ Forall started rest.
Proof.
  do 5 eexists. split; [reach 1|]. split; [reflexivity|].
  refine ((fun H => conj (proj1 H) (proj1 (proj2 H)))
            (driver_send_protocol maybe_env 1 (SText "") maybe_twice
               _ _ _ _ _ _ _)).
  - reach 1.
  - reflexivity.
Defined.

Lemma pair_started_once_witness :
  exists P0 a0 P2,
    turns maybe_env 1 (P0, a0) (P0, a0) /\
    turn maybe_env 1 (P0, a0) (P2, None) /\
    exists k g,
      stack P2 = (k, Fresh g) :: tl (stack P2) /\
      List.length (stack P2) = S (List.length (stack P0)) /\
      memo_get k (memo P0) = None /\
      memo_get k (memo P0) = None /\
      memo_get k (memo P2) = Some ParseFailure.
Proof.
  exists (with_stack
            (with_memo (Parser_init (SText ""))
               [((maybe_twice, 0), ParseFailure)])
            [((maybe_twice, 0), Fresh (_parse_tuple [ForwardRef 0; ForwardRef 0] 0))]).
  exists None. eexists.
  assert (Ht : turn maybe_env 1
                 (with_stack
                    (with_memo (Parser_init (SText ""))
                       [((maybe_twice, 0), ParseFailure)])
                    [((maybe_twice, 0),
                      Fresh (_parse_tuple [ForwardRef 0; ForwardRef 0] 0))],
                  None)
                 (_, None))
    by (eapply turn_body; reflexivity).
  split; [apply turns_refl|]. split; [exact Ht|].
  exact (proj1 (pair_started_once maybe_env 1 _ _ _ _ _ _
                  (turns_refl _ _ _) Ht) eq_refl).
Defined.

Lemma memo_keys_are_resolved_witness :
  exists P ans,
    reachable maybe_env 1 (SText "") maybe_twice P ans /\
    In ((Opt (ForwardRef 0), 0), ParseFailure) (memo P) /\
    fst (Opt (ForwardRef 0), 0) <> ForwardRef 0.
Proof.
  do 2 eexists. split; [reach 1|]. split; [left; reflexivity|].
  refine (proj1 (memo_keys_are_resolved maybe_env 1 (SText "") maybe_twice
                   _ _ _) (Opt (ForwardRef 0), 0) ParseFailure 0 _).
  - reach 1.
  - left. reflexivity.
Defined.

Lemma run_answer_is_start_entry_witness :
  exists P',
    drive empty_env 0 1 (Parser_init (SText "a")) (TStr "a")
      = Ok (Some (ParseResult (VStr "a") 1), P') /\
    exists t a,
      unwrap empty_env 0 (TStr "a") = Some t /\
      Some (ParseResult (VStr "a") 1) = Some a /\
      memo_get (t, 0) (memo P') = Some a /\
      stack P' = [] /\ source P' = SText "a".
Proof.
  eexists. split; [reflexivity|].
  apply (run_answer_is_start_entry empty_env 0 (SText "a") (TStr "a") 1).
  reflexivity.
Defined.

Lemma caches_stay_correct_witness :
  exists P ans P' ans',
    reachable struct_env 0 (SText "ab") (TStruct 0) P ans /\
    turns struct_env 0 (P, ans) (P', ans') /\
    cache_get 0 (fieldmap P) = Some [("left", TStr "a"); ("right", TStr "b")] /\
    cache_get 0 (fieldmap P') = Some [("left", TStr "a"); ("right", TStr "b")] /\
    [("left", TStr "a"); ("right", TStr "b")] = _struct_fields struct_env 0.
Proof.
  do 4 eexists. split; [reach 0|].
  split; [eapply turns_step; [apply turns_refl | eapply turn_body; reflexivity]|].
  split; [reflexivity|].
  refine (proj1 (proj2 (proj2 (caches_stay_correct struct_env 0 (SText "ab")
            (TStruct 0) _ _ _ _ _ _))) 0 _ _).
  - reach 0.
  - eapply turns_step; [apply turns_refl | eapply turn_body; reflexivity].
  - reflexivity.
Defined.

(** ** The depth of the stack *)

Lemma memo_get_In k a m : memo_get k m = Some a -> In k (map fst m).
Proof.
  induction m as [|[k' a'] m IH]; simpl; [discriminate|].
  destruct (key_eqb k k') eqn:Hk.
  - intros _. left. symmetry. apply key_eqb_eq. exact Hk.
  - intros H. right. exact (IH H).
Qed.

(** X13. In every state of a run the pairs on the stack are pairwise
    distinct and each of them is a key of the memo: the stack is never
    deeper than the number of different pairs the parse has met. *)
Theorem stack_pairs_distinct E depth src term P ans :
  reachable E depth src term P ans ->
  NoDup (keys (stack P)) /\
  incl (keys (stack P)) (map fst (memo P)) /\
  List.length (stack P) <= List.length (memo P).
Proof.
  intros Hr. destruct (reachable_seeded _ _ _ _ _ _ Hr) as [Hnd Hm].
  assert (Hincl : incl (keys (stack P)) (map fst (memo P))).
  { intros k Hk. eapply memo_get_In. apply Hm. exact Hk. }
  split; [exact Hnd|]. split; [exact Hincl|].
  pose proof (NoDup_incl_length Hnd Hincl) as Hlen.
  unfold keys in Hlen. rewrite !length_map in Hlen. exact Hlen.
Qed.

Lemma stack_pairs_distinct_witness :
  exists P ans,
    reachable maybe_env 1 (SText "") maybe_twice P ans /\
    NoDup (keys (stack P)) /\
    List.length (stack P) <= List.length (memo P).
Proof.
  do 2 eexists. split; [reach 1|].
  refine ((fun H => conj (proj1 H) (proj2 (proj2 H)))
            (stack_pairs_distinct maybe_env 1 (SText "") maybe_twice _ _ _)).
  reach 1.
Defined.
